(** * go-dmr: checksum engines, EMB parser, Home Brew frame codec and link session

    A shallow embedding of [crc.go], of the embedded-signalling parser and of
    [homebrew/homebrew.go].  Go's fixed-width unsigned integers are modelled as
    [Z] with the wrap-around written out, byte slices as [list Z], and run-time
    faults (index or slice out of range) as an explicit [Panic] result. *)

From stdpp Require Import base decidable option list numbers strings.
From Stdlib Require Import ZArith Lia.

Local Open Scope Z_scope.

(** ** Go's machine integers *)

Definition uint8 (z : Z) : Z := z mod 2 ^ 8.
Definition uint16 (z : Z) : Z := z mod 2 ^ 16.
Definition uint32 (z : Z) : Z := z mod 2 ^ 32.
Definition uint64 (z : Z) : Z := z mod 2 ^ 64.

Definition is_uint8 (z : Z) : Prop := 0 <= z < 2 ^ 8.
Definition is_uint16 (z : Z) : Prop := 0 <= z < 2 ^ 16.
Definition is_uint32 (z : Z) : Prop := 0 <= z < 2 ^ 32.
Definition is_uint64 (z : Z) : Prop := 0 <= z < 2 ^ 64.

(** Bit [k] of [z], as a number. *)
Definition bit (z k : Z) : Z := Z.b2z (Z.testbit z k).

(** ** Results of fallible Go code

    [Err] is a returned [error]; [Panic] is a run-time fault (an index or a
    slice bound out of range). *)

Inductive result (E A : Type) : Type :=
  | Ok (a : A)
  | Err (e : E)
  | Panic.
Global Arguments Ok {E A} a.
Global Arguments Err {E A} e.
Global Arguments Panic {E A}.

Global Instance result_ret {E} : MRet (result E) := λ A a, Ok a.
Global Instance result_bind {E} : MBind (result E) := λ A B k m,
  match m with
  | Ok a => k a
  | Err e => Err e
  | Panic => Panic
  end.

Definition is_Ok {E A} (r : result E A) : Prop := ∃ a, r = Ok a.
Definition is_Err {E A} (r : result E A) : Prop := ∃ e, r = Err e.

(** ** Go's slices, as lists

    The capacity of a slice is taken to be its length, so the model faults
    wherever Go does. *)

Section slices.
Context {E : Type}.

(** [s[i]] *)
Definition index (s : list Z) (i : nat) : result E Z :=
  match s !! i with
  | Some x => Ok x
  | None => Panic
  end.

(** [s[lo:hi]] *)
Definition slice (s : list Z) (lo hi : nat) : result E (list Z) :=
  if bool_decide (lo ≤ hi ∧ hi ≤ length s)%nat
  then Ok (take (hi - lo) (drop lo s))
  else Panic.
End slices.

(** [copy(dst[lo:hi], src)] for [lo <= hi <= len(dst)]: the first
    [min(hi-lo, len(src))] elements of [src] overwrite [dst] from [lo]. *)
Definition copy (dst : list Z) (lo hi : nat) (src : list Z) : list Z :=
  let n := Nat.min (hi - lo) (length src) in
  take lo dst ++ take n src ++ drop (lo + n) dst.

(** [bytes.Equal] *)
Fixpoint Equal (a b : list Z) : bool :=
  match a, b with
  | [], [] => true
  | x :: a, y :: b => (x =? y) && Equal a b
  | _, _ => false
  end.

(** [binary.BigEndian.PutUint32(b[off:off+4], v)] *)
Definition PutUint32 (b : list Z) (off : nat) (v : Z) : list Z :=
  let b := <[off := uint8 (Z.shiftr v 24)]> b in
  let b := <[(off + 1)%nat := uint8 (Z.shiftr v 16)]> b in
  let b := <[(off + 2)%nat := uint8 (Z.shiftr v 8)]> b in
  <[(off + 3)%nat := uint8 v]> b.

(** [binary.BigEndian.Uint32(b)] *)
Definition Uint32 {E} (b : list Z) : result E Z :=
  b3 ← index b 3;
  b0 ← index b 0;
  b1 ← index b 1;
  b2 ← index b 2;
  Ok (Z.lor (Z.lor (Z.lor b3 (uint32 (Z.shiftl b2 8))) (uint32 (Z.shiftl b1 16)))
            (uint32 (Z.shiftl b0 24))).

(** [encoding/hex]: the value of one hexadecimal digit. *)
Definition fromHexChar (c : Z) : option Z :=
  if (48 <=? c) && (c <=? 57) then Some (c - 48)
  else if (97 <=? c) && (c <=? 102) then Some (c - 97 + 10)
  else if (65 <=? c) && (c <=? 70) then Some (c - 65 + 10)
  else None.

(** [hex.DecodeString]; [None] is any of its errors (a byte that is no digit,
    an odd length). *)
Fixpoint DecodeString (s : list Z) : option (list Z) :=
  match s with
  | [] => Some []
  | [_] => None
  | a :: b :: s =>
      match fromHexChar a, fromHexChar b, DecodeString s with
      | Some x, Some y, Some r => Some (uint8 (Z.lor (Z.shiftl x 4) y) :: r)
      | _, _, _ => None
      end
  end.

(** * crc.go *)

Module CRC.

(** One pass through the body of the second loop of [crc9], for the input bit
    [inbit] (the outcome of [b&v > 0]). *)
Definition crc9_shift (crc : Z) (inbit : bool) : Z :=
  let xor := 0 <? Z.land crc 0x0100 in
  let crc := uint16 (Z.shiftl crc 1) in
  let crc := Z.land crc 0x01ff in
  let crc := if inbit then uint16 (crc + 1) else crc in
  if xor then Z.lxor crc 0x0059 else crc.

(** The loop state of [crc9] is the register and the mask [v]. *)
Definition crc9_body (b : Z) (st : Z * Z) : Z * Z :=
  let '(crc, v) := st in
  (crc9_shift crc (0 <? Z.land b v), Z.shiftr v 1).

Definition crc9_mask (bits : Z) : Z :=
  Nat.iter (Z.to_nat (8 - bits)) (fun v => Z.shiftr v 1) 0x80.

Definition crc9 (crc : Z) (b : Z) (bits : Z) : Z :=
  fst (Nat.iter 8 (crc9_body b) (crc, crc9_mask bits)).

Definition crc9end (crc : Z) (bits : Z) : Z :=
  Nat.iter (Z.to_nat bits) (fun crc => crc9_shift crc false) crc.

Definition crc16_shift (crc : Z) (inbit : bool) : Z :=
  let xor := negb (Z.land crc 0x8000 =? 0) in
  let crc := uint16 (Z.shiftl crc 1) in
  let crc := if inbit then uint16 (crc + 1) else crc in
  if xor then Z.lxor crc 0x1021 else crc.

Definition crc16_body (b : Z) (st : Z * Z) : Z * Z :=
  let '(crc, v) := st in
  (crc16_shift crc (0 <? Z.land b v), Z.shiftr v 1).

Definition crc16 (crc : Z) (b : Z) : Z :=
  fst (Nat.iter 8 (crc16_body b) (crc, 0x80)).

Definition crc16end (crc : Z) : Z :=
  Nat.iter 16 (fun crc => crc16_shift crc false) crc.

Definition crc32_shift (crc : Z) (inbit : bool) : Z :=
  let xor := 0 <? Z.land crc 0x80000000 in
  let crc := uint32 (Z.shiftl crc 1) in
  let crc := if inbit then uint32 (crc + 1) else crc in
  if xor then Z.lxor crc 0x04c11db7 else crc.

Definition crc32_body (b : Z) (st : Z * Z) : Z * Z :=
  let '(crc, v) := st in
  (crc32_shift crc (0 <? Z.land b v), Z.shiftr v 1).

Definition crc32 (crc : Z) (b : Z) : Z :=
  fst (Nat.iter 8 (crc32_body b) (crc, 0x80)).

Definition crc32end (crc : Z) : Z :=
  Nat.iter 32 (fun crc => crc32_shift crc false) crc.

(** The bits of [b] at positions [hi-1], [hi-2], ..., [lo], most significant
    first. *)
Definition bits_from (b : Z) (hi lo : nat) : list bool :=
  (λ k, Z.testbit b (Z.of_nat k)) <$> reverse (seq lo (hi - lo)).

(** The update as the specification words it: only the top [bits] bits of the
    byte are fed (bit 7 down to bit [8-bits]), one shift for each, and nothing
    else is shifted. *)
Definition crc9_top_bits (crc : Z) (b : Z) (bits : Z) : Z :=
  fold_left crc9_shift (bits_from b 8 (8 - Z.to_nat bits)) crc.

(** What the loop of [crc9] feeds: the low [bits] bits of the byte, the highest
    of them first, and then [8-bits] zero bits; eight shifts whatever [bits]. *)
Definition crc9_fed (b : Z) (bits : Z) : list bool :=
  bits_from b (Z.to_nat bits) 0 ++ replicate (8 - Z.to_nat bits) false.

(** The mask that selects bit [k-1] of the byte, and nothing once [k] is 0:
    the values [v] takes in the second loop of [crc9]. *)
Definition mask_below (k : nat) : Z :=
  match k with
  | O => 0
  | S k => 2 ^ Z.of_nat k
  end.

End CRC.

(** * The embedded-signalling parser *)

Module Signalling.

(** Modelled from the spec: the constant [EMBBits] is declared in a file of the
    package that is not among the sources; the specification gives the
    expected width of the field as 16 bits. *)
Definition EMBBits : nat := 16.

(** EMB LCSS fragments *)
Definition SingleFragment : Z := 0.
Definition FirstFragment : Z := 1.
Definition LastFragment : Z := 2.
Definition Continuation : Z := 3.

Record EMB : Type := { ColorCode : Z; LCSS : Z }.

Inductive emb_error : Type :=
  | ExpectedBits (want got : nat)   (* "expected %d bits, got %d" *)
  | ChecksumError                   (* "checksum error" *)
  | PiNotZero.                      (* "pi is not 0" *)

Section parser.
(** [quadres_16_7.Check], the quadratic-residue parity check, is an external
    capability.  An element of [bit.Bits] is a byte that holds one bit. *)
Variable Check : list Z → bool.

Definition ParseEMB (bits : list Z) : result emb_error EMB :=
  if negb (length bits =? EMBBits)%nat then Err (ExpectedBits EMBBits (length bits))
  else if negb (Check bits) then Err ChecksumError
  else
    pi ← index bits 4;
    if negb (pi =? 0) then Err PiNotZero
    else
      b0 ← index bits 0;
      b1 ← index bits 1;
      b2 ← index bits 2;
      b3 ← index bits 3;
      b5 ← index bits 5;
      b6 ← index bits 6;
      Ok {| ColorCode :=
              Z.lor (Z.lor (Z.lor (uint8 (Z.shiftl (uint8 b0) 3))
                                  (uint8 (Z.shiftl (uint8 b1) 2)))
                           (uint8 (Z.shiftl (uint8 b2) 1)))
                    (uint8 b3);
            LCSS := Z.lor (uint8 (Z.shiftl (uint8 b5) 1)) (uint8 b6) |}.
End parser.

(** A bit sequence proper: every element is 0 or 1. *)
Definition is_bit (b : Z) : Prop := b = 0 ∨ b = 1.
Definition all_bits (bits : list Z) : Prop := Forall is_bit bits.

(** [n] bits, most significant first, packed into a number. *)
Definition pack_msb (bits : list Z) : Z :=
  fold_left (λ acc b, 2 * acc + b) bits 0.

End Signalling.

(** * homebrew/homebrew.go *)

Module Homebrew.

(** ** The data frame *)

(** [CallType] *)
Definition GroupCall : Z := 0.
Definition UnitCall : Z := 1.

(** [FrameType] *)
Definition Voice : Z := 0.
Definition VoiceSync : Z := 1.
Definition DataSync : Z := 2.
Definition UnusedFrameType : Z := 3.

Record Frame : Type := {
  Signature : list Z;    (* [4]byte *)
  Sequence : Z;          (* byte *)
  SrcID : Z;             (* uint32 *)
  DstID : Z;             (* uint32 *)
  RepeaterID : Z;        (* uint32 *)
  Flags : Z;             (* byte *)
  StreamID : Z;          (* uint32 *)
  DMR : list Z           (* [33]byte *)
}.

(** The values the Go type [Frame] holds. *)
Record Frame_wf (f : Frame) : Prop := {
  wf_Signature : length (Signature f) = 4%nat ∧ Forall is_uint8 (Signature f);
  wf_Sequence : is_uint8 (Sequence f);
  wf_SrcID : is_uint32 (SrcID f);
  wf_DstID : is_uint32 (DstID f);
  wf_RepeaterID : is_uint32 (RepeaterID f);
  wf_Flags : is_uint8 (Flags f);
  wf_StreamID : is_uint32 (StreamID f);
  wf_DMR : length (DMR f) = 33%nat ∧ Forall is_uint8 (DMR f)
}.

(** [Frame.Bytes] *)
Definition Bytes (f : Frame) : list Z :=
  let b := replicate 53 0 in
  let b := copy b 0 4 (Signature f) in
  let b := <[4%nat := Sequence f]> b in
  let b := <[5%nat := uint8 (Z.shiftr (SrcID f) 16)]> b in
  let b := <[6%nat := uint8 (Z.shiftr (SrcID f) 8)]> b in
  let b := <[7%nat := uint8 (SrcID f)]> b in
  let b := <[8%nat := uint8 (Z.shiftr (DstID f) 16)]> b in
  let b := <[9%nat := uint8 (Z.shiftr (DstID f) 8)]> b in
  let b := <[10%nat := uint8 (DstID f)]> b in
  let b := PutUint32 b 11 (RepeaterID f) in
  let b := <[15%nat := Flags f]> b in
  let b := PutUint32 b 16 (StreamID f) in
  copy b 21 (length b) (DMR f).

Definition CallType (f : Frame) : Z := Z.land (Z.shiftr (Flags f) 1) 0x01.
Definition DataType (f : Frame) : Z := Z.shiftr (Flags f) 4.
Definition FrameType (f : Frame) : Z := Z.land (Z.shiftr (Flags f) 2) 0x03.
Definition Slot (f : Frame) : Z := Z.land (Flags f) 0x01 + 1.

Inductive frame_error : Type :=
  | InvalidPacketLength.            (* "invalid packet length" *)

(** [ParseFrame] *)
Definition ParseFrame (data : list Z) : result frame_error Frame :=
  if negb (length data =? 53)%nat then Err InvalidPacketLength
  else
    sig ← slice data 0 4;
    seq ← index data 4;
    s5 ← index data 5;
    s6 ← index data 6;
    s7 ← index data 7;
    d8 ← index data 8;
    d9 ← index data 9;
    d10 ← index data 10;
    rb ← slice data 11 15;
    rid ← Uint32 rb;
    fl ← index data 15;
    sb ← slice data 16 20;
    sid ← Uint32 sb;
    pl ← slice data 20 (length data);
    Ok {| Signature := copy (replicate 4 0) 0 4 sig;
          Sequence := seq;
          SrcID := Z.lor (Z.lor (uint32 (Z.shiftl s5 16)) (uint32 (Z.shiftl s6 8))) s7;
          DstID := Z.lor (Z.lor (uint32 (Z.shiftl d8 16)) (uint32 (Z.shiftl d9 8))) d10;
          RepeaterID := rid;
          Flags := fl;
          StreamID := sid;
          DMR := copy (replicate 33 0) 0 33 pl |}.

(** ** The link to the master *)

(** The protocol signatures are package-level variables declared in a file of
    the package that is not among the sources; they are parameters here. *)
Class Signatures : Type := {
  DMRData : list Z;
  MasterNAK : list Z;
  MasterACK : list Z;
  RepeaterLogin : list Z;
  RepeaterKey : list Z;
  MasterPing : list Z
}.

Inductive authStatus : Type := authNone | authBegin | authDone | authFail.

Global Instance authStatus_eq_dec : EqDecision authStatus.
Proof. solve_decision. Defined.

(** The fields of [Link] that [login], [keepAlive] and [parse] read or write
    (but for [Dump], which only prints the configuration record).  [stream]
    tells whether the stream callback is set (not nil). *)
Record Link : Type := {
  stream : bool;
  authKey : list Z;
  local_id : list Z;
  master_status : authStatus;
  master_secret : list Z;
  keepalive_outstanding : Z;   (* uint32 *)
  keepalive_sent : Z           (* uint64 *)
}.

Definition set_status (l : Link) (st : authStatus) : Link :=
  {| stream := stream l; authKey := authKey l; local_id := local_id l;
     master_status := st; master_secret := master_secret l;
     keepalive_outstanding := keepalive_outstanding l;
     keepalive_sent := keepalive_sent l |}.

Definition set_secret (l : Link) (secret : list Z) : Link :=
  {| stream := stream l; authKey := authKey l; local_id := local_id l;
     master_status := master_status l; master_secret := secret;
     keepalive_outstanding := keepalive_outstanding l;
     keepalive_sent := keepalive_sent l |}.

(** [atomic.AddUint32(&l.master.keepalive.outstanding, 1)] *)
Definition add_outstanding (l : Link) : Link :=
  {| stream := stream l; authKey := authKey l; local_id := local_id l;
     master_status := master_status l; master_secret := master_secret l;
     keepalive_outstanding := uint32 (keepalive_outstanding l + 1);
     keepalive_sent := keepalive_sent l |}.

(** [atomic.AddUint64(&l.master.keepalive.sent, 1)] *)
Definition add_sent (l : Link) : Link :=
  {| stream := stream l; authKey := authKey l; local_id := local_id l;
     master_status := master_status l; master_secret := master_secret l;
     keepalive_outstanding := keepalive_outstanding l;
     keepalive_sent := uint64 (keepalive_sent l + 1) |}.

(** What the link does to the world: log lines, datagrams handed to [Send]
    (with the outcome of the write), frames handed to the stream callback,
    and sleeps (in seconds). *)
Inductive message : Type :=
  | LoggingIn | Authenticating | LoggedIn (size : nat) | LoginFailed | Waiting
  | SendFailed
  | UnexpectedLoginReply
  | LoginRefused (repeater : list Z)
  | LoginAccepted (repeater : list Z)
  | UnexpectedLoginReplyFrom (repeater : list Z)
  | AuthenticationRefused (repeater : list Z)
  | AuthenticationAccepted (repeater : list Z)
  | UnexpectedAuthenticationReply (repeater : list Z)
  | ErrorParsing (e : frame_error).

Inductive event : Type :=
  | Log (m : message)
  | Send (p : list Z) (ok : bool)
  | Stream (f : Frame)
  | Sleep (seconds : Z).

(** How one pass through the loop of [parse] ends: the loop goes on
    ([continue], or [break] out of the [switch]), or the function returns. *)
Inductive control : Type := Continue | Return.

(** [hex.EncodeToString] *)
Definition hexdigit (d : Z) : Z := if d <? 10 then 48 + d else 87 + d.
Definition EncodeToString (s : list Z) : list Z :=
  s ≫= λ v, [hexdigit (Z.shiftr v 4); hexdigit (Z.land v 0x0f)].

Section link.
Context `{Signatures}.
(** The record the configuration callback returns, as bytes, and SHA-256 are
    external. *)
Variable config : list Z.
Variable sha256 : list Z → list Z.

(** The body of the loop of [parse], for the packet taken from the queue. *)
Definition parse_packet (l : Link) (data : list Z)
  : result Empty_set (Link * control * list event) :=
  let size := length data in
  if (size <? 4)%nat then Ok (l, Continue, [])
  else
    match master_status l with
    | authNone =>
        head ← slice data 0 4;
        if Equal head DMRData then Ok (l, Return, [])
        else if (size <? 14)%nat then Ok (l, Return, [])
        else
          packet ← slice data 0 6;
          id ← slice data 6 14;
          match DecodeString id with
          | None => Ok (set_status l authFail, Continue, [Log UnexpectedLoginReply])
          | Some repeater =>
              if Equal packet MasterNAK then
                Ok (set_status l authFail, Continue, [Log (LoginRefused repeater)])
              else if Equal packet MasterACK then
                secret ← slice data 14 size;
                Ok (set_status (set_secret l secret) authBegin, Continue,
                    [Log (LoginAccepted repeater)])
              else
                Ok (set_status l authFail, Continue,
                    [Log (UnexpectedLoginReplyFrom repeater)])
          end
    | authBegin =>
        head ← slice data 0 4;
        if Equal head DMRData then Ok (l, Return, [])
        else if (size <? 14)%nat then
          Ok (set_status l authFail, Continue, [Log UnexpectedLoginReply])
        else
          packet ← slice data 0 6;
          id ← slice data 6 14;
          match DecodeString id with
          | None => Ok (set_status l authFail, Continue, [Log UnexpectedLoginReply])
          | Some repeater =>
              if Equal packet MasterNAK then
                Ok (set_status l authFail, Continue,
                    [Log (AuthenticationRefused repeater)])
              else if Equal packet MasterACK then
                Ok (set_status l authDone, Continue,
                    [Log (AuthenticationAccepted repeater)])
              else
                Ok (set_status l authFail, Continue,
                    [Log (UnexpectedAuthenticationReply repeater)])
          end
    | authDone =>
        head ← slice data 0 4;
        if Equal head DMRData then
          if negb (stream l) then Ok (l, Return, [])
          else
            match ParseFrame data with
            | Ok frame => Ok (l, Continue, [Stream frame])
            | Err e => Ok (l, Return, [Log (ErrorParsing e)])
            | Panic => Panic
            end
        else Ok (l, Continue, [])
    | authFail => Ok (l, Continue, [])
    end.

(** [parse], on the packets that arrive on the queue. *)
Fixpoint parse (l : Link) (queue : list (list Z))
  : result Empty_set (Link * control * list event) :=
  match queue with
  | [] => Ok (l, Continue, [])
  | data :: queue =>
      '(l, c, evs) ← parse_packet l data;
      match c with
      | Return => Ok (l, Return, evs)
      | Continue =>
          '(l, c, evs') ← parse l queue;
          Ok (l, c, evs ++ evs')
      end
  end.

(** Where [keepAlive] stands in a pass through its loop: before the atomic add
    to the outstanding counter, between that add and the atomic add to the
    sent counter, or past both adds, about to hand the ping to [Send]. *)
Inductive keepalive_pc : Type := AddOutstanding | AddSent | SendPing.

(** One step of [keepAlive]: one of the two atomic adds, or the ping handed to
    [Send] with what follows the write ([ok] is its outcome): the minute's
    sleep and the next pass, or the return ([None]). *)
Definition keepAlive_step (ok : bool) (l : Link) (pc : keepalive_pc)
  : Link * option keepalive_pc * list event :=
  match pc with
  | AddOutstanding => (add_outstanding l, Some AddSent, [])
  | AddSent => (add_sent l, Some SendPing, [])
  | SendPing =>
      let p := MasterPing ++ local_id l in
      if ok then (l, Some AddOutstanding, [Send p true; Sleep 60])
      else (l, None, [Send p false; Log SendFailed])
  end.

(** One whole pass through the loop of [keepAlive], its three steps in a row
    with nothing in between; [ok] is the outcome of the write to the socket.
    The loop goes on ([true]) or the function returns. *)
Definition keepAlive_pass (ok : bool) (l : Link) : Link * bool * list event :=
  let l := add_outstanding l in
  let l := add_sent l in
  let p := MasterPing ++ local_id l in
  if ok then (l, true, [Send p true; Sleep 60])
  else (l, false, [Send p false; Log SendFailed]).

(** Where [login] stands: in its own loop with the local [previous], in the
    loop of [keepAlive] at one of its steps, or returned. *)
Inductive login_pc : Type :=
  | InLogin (previous : authStatus)
  | InKeepAlive (pc : keepalive_pc)
  | Returned.

(** One pass through the loop of [login]. *)
Definition login_pass (ok : bool) (l : Link) (previous : authStatus)
  : Link * login_pc * list event :=
  if decide (master_status l = authFail) then (l, Returned, [])
  else if decide (master_status l ≠ previous) then
    match master_status l with
    | authNone =>
        (l, InLogin authNone,
         [Log LoggingIn; Send (RepeaterLogin ++ local_id l) ok])
    | authBegin =>
        let p := RepeaterKey ++ local_id l in
        let p := p ++ EncodeToString (sha256 (master_secret l ++ authKey l)) in
        (l, InLogin authBegin, [Log Authenticating; Send p ok])
    | authDone =>
        if ok then
          (l, InKeepAlive AddOutstanding,
           [Log (LoggedIn (length config)); Send config true])
        else (l, Returned,
              [Log (LoggedIn (length config)); Send config false; Log SendFailed])
    | authFail => (l, Returned, [Log LoginFailed])
    end
  else (l, InLogin previous, [Log Waiting; Sleep 1]).

(** ** A session: [Run] starts [login] and [parse] side by side *)

Record session : Type := {
  link : Link;
  dispatcher : control;     (* [Return] once [parse] has returned *)
  login_at : login_pc
}.

(** What happens next: a datagram is read, queued and handled by [parse], or
    the [login] goroutine goes one step further: a pass of its own loop or,
    once in [keepAlive], one step of that loop (each atomic add is a step of
    its own, so that [parse] may run between the two). *)
Inductive action : Type :=
  | Receive (data : list Z)
  | Login (ok : bool).

Definition session_step (s : session) (a : action)
  : result Empty_set (session * list event) :=
  match a with
  | Receive data =>
      match dispatcher s with
      | Return => Ok (s, [])
      | Continue =>
          '(l, c, evs) ← parse_packet (link s) data;
          Ok ({| link := l; dispatcher := c; login_at := login_at s |}, evs)
      end
  | Login ok =>
      match login_at s with
      | InLogin previous =>
          let '(l, pc, evs) := login_pass ok (link s) previous in
          Ok ({| link := l; dispatcher := dispatcher s; login_at := pc |}, evs)
      | InKeepAlive pc =>
          let '(l, next, evs) := keepAlive_step ok (link s) pc in
          Ok ({| link := l; dispatcher := dispatcher s;
                 login_at := match next with
                             | Some pc => InKeepAlive pc
                             | None => Returned
                             end |}, evs)
      | Returned => Ok (s, [])
      end
  end.

Fixpoint run (s : session) (acts : list action)
  : result Empty_set (session * list event) :=
  match acts with
  | [] => Ok (s, [])
  | a :: acts =>
      '(s, evs) ← session_step s a;
      '(s, evs') ← run s acts;
      Ok (s, evs ++ evs')
  end.
End link.

(** How far the outstanding counter is ahead of the sent counter at a point
    of the [login] goroutine: by one between the two adds of [keepAlive], by
    nothing anywhere else. *)
Definition ahead (pc : login_pc) : Z :=
  match pc with
  | InKeepAlive AddSent => 1
  | _ => 0
  end.

(** [fmt.Sprintf("%08x", id)] for a [uint32]. *)
Definition hex8 (id : Z) : list Z :=
  (λ k, hexdigit (Z.land (Z.shiftr id (4 * Z.of_nat k)) 0x0f)) <$> reverse (seq 0 8).

(** The link [New] returns when it returns one: the [master] structure has
    Go's zero values.  Of the errors of [New] only the one for a local ID of
    zero is kept; a missing configuration callback, a key that is no hex
    string after "0x" and addresses that do not resolve make the code return
    no link where this returns one, so what holds of every link from here
    holds of every link of the code. *)
Definition New (key : list Z) (LocalID : Z) (sf : bool) : option Link :=
  if LocalID =? 0 then None
  else Some {| stream := sf; authKey := key; local_id := hex8 LocalID;
               master_status := authNone; master_secret := [];
               keepalive_outstanding := 0; keepalive_sent := 0 |}.

(** [Run]: [login] starts with [previous = authDone], [parse] is running. *)
Definition Run (l : Link) : session :=
  {| link := l; dispatcher := Continue; login_at := InLogin authDone |}.

End Homebrew.

(** * Sample values *)

Module Samples.
Import Homebrew.
Local Open Scope string_scope.

Definition bytes (s : String.string) : list Z :=
  (λ a, Z.of_N (Ascii.N_of_ascii a)) <$> String.list_ascii_of_string s.

(** The signatures as the Home Brew protocol has them. *)
Definition homebrew : Signatures :=
  {| DMRData := bytes "DMRD";
     MasterNAK := bytes "MSTNAK";
     MasterACK := bytes "MSTACK";
     RepeaterLogin := bytes "RPTL";
     RepeaterKey := bytes "RPTK";
     MasterPing := bytes "MSTPING" |}.

(** A frame whose payload is 1, 2, ..., 33. *)
Definition frame : Frame :=
  {| Signature := bytes "DMRD"; Sequence := 7;
     SrcID := 0x20A1B2; DstID := 0x00C3D4; RepeaterID := 0x12345678;
     Flags := 0x13; StreamID := 0xCAFEBABE;
     DMR := Z.of_nat <$> seq 1 33 |}.

(** A frame with the flags byte [fl]. *)
Definition with_flags (fl : Z) : Frame :=
  {| Signature := bytes "DMRD"; Sequence := 0; SrcID := 0; DstID := 0;
     RepeaterID := 0; Flags := fl; StreamID := 0; DMR := replicate 33 0 |}.

(** A link fresh from [New], not yet logged in. *)
Definition fresh : Link :=
  {| stream := true; authKey := bytes "passw0rd"; local_id := hex8 2042001;
     master_status := authNone; master_secret := [];
     keepalive_outstanding := 0; keepalive_sent := 0 |}.

(** Replies of the master to the login request. *)
Definition ack_reply : list Z := bytes "MSTACK001f2891deadbeef".
Definition nak_reply : list Z := bytes "MSTNAK001f2891".
Definition odd_reply : list Z := bytes "MSTXXX001f2891".
Definition short_reply : list Z := bytes "MSTNAK001f".

Definition key_reply : list Z := bytes "MSTACK001f2891".

(** Stand-ins for the configuration record and for SHA-256 where a session is
    run on sample input; nothing proved depends on what they are. *)
Definition no_config : list Z := [].
Definition digest (m : list Z) : list Z := m.

(** A parity check that accepts everything, and a field of sixteen bits. *)
Definition accept_all (bits : list Z) : bool := true.
Definition emb_bits : list Z := [1; 0; 1; 1; 0; 1; 0; 0; 1; 1; 0; 1; 0; 0; 1; 0].

End Samples.


(** * The checksum engines as shift registers over GF(2) *)

Module Register.

(** One shift of a register [w] bits wide with generator [poly]: the register
    moves up by one bit within its width, the input bit comes in at the low
    end, and the generator is added (XOR) when the bit that left was set. *)
Definition lfsr (w poly : Z) (crc : Z) (inbit : bool) : Z :=
  Z.lxor (Z.lxor ((2 * crc) mod 2 ^ w) (Z.b2z inbit))
         (if Z.testbit crc (w - 1) then poly else 0).

(** The loop that [crc9], [crc16] and [crc32] share, for the shift [shift]. *)
Definition body (shift : Z → bool → Z) (b : Z) (st : Z * Z) : Z * Z :=
  let '(crc, v) := st in
  (shift crc (0 <? Z.land b v), Z.shiftr v 1).

(** The eight bits of a byte, the highest first. *)
Definition byte_bits (b : Z) : list bool := CRC.bits_from b 8 0.

(** The number a list of bits spells, the highest bit first. *)
Definition bits_value (bits : list bool) : Z :=
  fold_left (λ acc b, 2 * acc + Z.b2z b) bits 0.

(** Two messages added bit by bit. *)
Definition xor_bytes (m1 m2 : list Z) : list Z := zip_with Z.lxor m1 m2.

(** The bytes of a 16-bit and of a 32-bit checksum, the highest first. *)
Definition be16 (c : Z) : list Z := [Z.shiftr c 8; Z.land c 0xff].
Definition be32 (c : Z) : list Z :=
  [Z.shiftr c 24; Z.land (Z.shiftr c 16) 0xff; Z.land (Z.shiftr c 8) 0xff;
   Z.land c 0xff].

End Register.


(** * Taking the signalling and information bits out of a burst *)

Module Bursts.
Import Signalling.

Section emb_bits.
(** [EMBHalfBits] and [EMBSignallingLCFragmentBits] are constants of the
    package declared in a file that is not among the sources; they are
    parameters here. *)
Variable EMBHalfBits : nat.
Variable EMBSignallingLCFragmentBits : nat.

(** [ExtractEMBBitsFromSyncBits] *)
Definition ExtractEMBBitsFromSyncBits (sync : list Z)
  : result Empty_set (list Z) :=
  let b := replicate EMBBits 0 in
  let o := (EMBHalfBits + EMBSignallingLCFragmentBits)%nat in
  _ ← slice b 0 EMBHalfBits;
  first ← slice sync 0 EMBHalfBits;
  let b := copy b 0 EMBHalfBits first in
  _ ← slice b EMBHalfBits (length b);
  second ← slice sync o (o + EMBHalfBits);
  Ok (copy b EMBHalfBits (length b) second).
End emb_bits.

Section info_bits.
(** [InfoBits], [InfoHalfBits], [SignalBits] and [SlotTypeBits] are constants
    of the package declared in a file that is not among the sources; they are
    parameters here. *)
Variable InfoBits : nat.
Variable InfoHalfBits : nat.
Variable SignalBits : nat.
Variable SlotTypeBits : nat.

(** [ExtractInfoBits] *)
Definition ExtractInfoBits (payload : list Z) : result Empty_set (list Z) :=
  let b := replicate InfoBits 0 in
  _ ← slice b 0 InfoHalfBits;
  first ← slice payload 0 InfoHalfBits;
  let b := copy b 0 InfoHalfBits first in
  _ ← slice b InfoHalfBits (length b);
  second ← slice payload (InfoHalfBits + SignalBits + SlotTypeBits) (length payload);
  Ok (copy b InfoHalfBits (length b) second).
End info_bits.

End Bursts.

(** * Sessions *)

Module Sessions.
Import Homebrew.

(** How a later link stands to an earlier one of the same session: what [New]
    set is as it was, the status has only moved forward, and the secret is the
    one that was there when the status left [authNone]. *)
Definition later (l l' : Link) : Prop :=
  stream l' = stream l ∧ authKey l' = authKey l ∧ local_id l' = local_id l
  ∧ (master_status l' = authNone → master_status l = authNone)
  ∧ (master_status l = authDone → master_status l' = authDone)
  ∧ (master_status l = authFail → master_status l' = authFail)
  ∧ (master_status l ≠ authNone → master_secret l' = master_secret l).

(** [keepAlive] runs only once the status is [authDone]. *)
Definition keepalive_when_done (s : session) : Prop :=
  ∀ pc, login_at s = InKeepAlive pc → master_status (link s) = authDone.

End Sessions.

(** * Sample bursts *)

Module BurstSamples.

(** The sync field of a voice burst: the two halves of {!Samples.emb_bits}
    around 32 bits of link-control fragment. *)
Definition sync_bits : list Z :=
  take 8 Samples.emb_bits ++ replicate 32 0 ++ drop 8 Samples.emb_bits.

(** A burst of 264 bits: two halves of 98 information bits around 68 bits of
    slot type and sync. *)
Definition burst_bits : list Z :=
  replicate 98 1 ++ replicate 68 0 ++ replicate 98 1.

End BurstSamples.

(** * The configuration record *)

Module Configuration.
Import Homebrew.

(** [fmt.Sprintf("%-Ws", s)]: padded with spaces on the right up to the width
    [w], never cut.  The width counts characters; the text here is ASCII, one
    byte a character. *)
Definition pad_right (w : nat) (s : list Z) : list Z :=
  s ++ replicate (w - length s) 32.

(** The decimal digits of an unsigned number, as [%d] prints them; twenty
    digits are enough for 64 bits. *)
Fixpoint digits (fuel : nat) (n : Z) : list Z :=
  match fuel with
  | O => []
  | S fuel =>
      if n <? 10 then [48 + n]
      else digits fuel (n / 10) ++ [48 + n mod 10]
  end.

(** [fmt.Sprintf("%0Wd", n)] for an unsigned [n]: padded with zeros on the
    left up to the width [w], never cut. *)
Definition pad_zero (w : nat) (n : Z) : list Z :=
  let s := digits 20 n in
  replicate (w - length s) 48 ++ s.

Definition ascii (s : list Z) : Prop := Forall (λ c, 0 <= c < 128) s.

Section configuration.
(** The text [%f] gives for a [float32] is left to [fmt]; so are the names
    [runtime.GOOS] and [runtime.GOARCH]. *)
Variable float32 : Type.
Variable Sprintf_f : float32 → list Z.
Variable GOOS GOARCH : list Z.

Definition Version : list Z := Samples.bytes "20151208".
Definition SoftwareID : list Z := GOOS ++ Samples.bytes ":go-dmr:" ++ Version.
Definition PackageID : list Z :=
  GOOS ++ Samples.bytes ":go-dmr:" ++ Version ++ Samples.bytes "-" ++ GOARCH.

Record RepeaterConfiguration : Type := {
  Callsign : list Z;
  RepeaterID : Z;      (* uint32 *)
  RXFreq : Z;          (* uint32 *)
  TXFreq : Z;          (* uint32 *)
  TXPower : Z;         (* uint8 *)
  ColorCode : Z;       (* uint8 *)
  Latitude : float32;
  Longitude : float32;
  Height : Z;          (* uint16 *)
  Location : list Z;
  Description : list Z;
  URL : list Z
}.

Definition set_ColorCode (r : RepeaterConfiguration) (v : Z)
  : RepeaterConfiguration :=
  {| Callsign := Callsign r; RepeaterID := RepeaterID r; RXFreq := RXFreq r;
     TXFreq := TXFreq r; TXPower := TXPower r; ColorCode := v;
     Latitude := Latitude r; Longitude := Longitude r; Height := Height r;
     Location := Location r; Description := Description r; URL := URL r |}.

Definition set_TXPower (r : RepeaterConfiguration) (v : Z)
  : RepeaterConfiguration :=
  {| Callsign := Callsign r; RepeaterID := RepeaterID r; RXFreq := RXFreq r;
     TXFreq := TXFreq r; TXPower := v; ColorCode := ColorCode r;
     Latitude := Latitude r; Longitude := Longitude r; Height := Height r;
     Location := Location r; Description := Description r; URL := URL r |}.

(** [String], with the record it leaves behind: the receiver is a pointer and
    the colour code and the power are cut to their ranges in place.  With the
    flag [-] the padding of the two coordinates is spaces on the right.  The
    method [Bytes] of the record returns the same text as a byte slice. *)
Definition String (r : RepeaterConfiguration)
  : RepeaterConfiguration * list Z :=
  let r := if ColorCode r <? 1 then set_ColorCode r 1 else r in
  let r := if 15 <? ColorCode r then set_ColorCode r 15 else r in
  let r := if 99 <? TXPower r then set_TXPower r 99 else r in
  let lat := pad_right 8 (Sprintf_f (Latitude r)) in
  let lat := if (8 <? length lat)%nat then take 8 lat else lat in
  let lon := pad_right 9 (Sprintf_f (Longitude r)) in
  let lon := if (9 <? length lon)%nat then take 9 lon else lon in
  let b := Samples.bytes "RPTC" in
  let b := b ++ pad_right 8 (Callsign r) in
  let b := b ++ hex8 (RepeaterID r) in
  let b := b ++ pad_zero 9 (RXFreq r) in
  let b := b ++ pad_zero 9 (TXFreq r) in
  let b := b ++ pad_zero 2 (TXPower r) in
  let b := b ++ pad_zero 2 (ColorCode r) in
  let b := b ++ lat in
  let b := b ++ lon in
  let b := b ++ pad_zero 3 (Height r) in
  let b := b ++ pad_right 20 (Location r) in
  let b := b ++ pad_right 20 (Description r) in
  let b := b ++ pad_right 124 (URL r) in
  let b := b ++ pad_right 40 SoftwareID in
  let b := b ++ pad_right 40 PackageID in
  (r, b).
End configuration.

Arguments Callsign {float32} r.
Arguments RepeaterID {float32} r.
Arguments RXFreq {float32} r.
Arguments TXFreq {float32} r.
Arguments TXPower {float32} r.
Arguments ColorCode {float32} r.
Arguments Latitude {float32} r.
Arguments Longitude {float32} r.
Arguments Height {float32} r.
Arguments Location {float32} r.
Arguments Description {float32} r.
Arguments URL {float32} r.
Arguments set_ColorCode {float32} r v.
Arguments set_TXPower {float32} r v.
Arguments String {float32} Sprintf_f GOOS GOARCH r.

(** A sample record, with the text of the two coordinates for [float32]; its
    colour code is out of range. *)
Definition sample : RepeaterConfiguration (list Z) :=
  {| Callsign := Samples.bytes "PD0ZZZ"; RepeaterID := 2042001;
     RXFreq := 438200000; TXFreq := 430600000; TXPower := 10; ColorCode := 0;
     Latitude := Samples.bytes "52.370216";
     Longitude := Samples.bytes "4.895168";
     Height := 12; Location := Samples.bytes "Amsterdam";
     Description := Samples.bytes "go-dmr";
     URL := Samples.bytes "https://example.org/" |}.

Definition sample_text (r : RepeaterConfiguration (list Z))
  : RepeaterConfiguration (list Z) * list Z :=
  String (λ t, t) (Samples.bytes "linux") (Samples.bytes "amd64") r.

End Configuration.

(** * Writing to the socket *)

Module Socket.

(** How a call of [Send] ends: it returns (with an error or with none), it
    faults on a slice out of range, or it is still in its loop when the
    writes looked at are used up. *)
Inductive outcome : Type :=
  | Returned (err : bool)
  | Faulted
  | Writing.

(** [Send]: [writes] holds what the calls of [WriteToUDP] return, in order
    (the count, and whether there is an error); the result is the buffers
    handed to [WriteToUDP], in order, and how the call ends. *)
Fixpoint Send (writes : list (nat * bool)) (data : list Z)
  : list (list Z) * outcome :=
  match data, writes with
  | [], _ => ([], Returned false)
  | _ :: _, [] => ([], Writing)
  | _ :: _, (n, err) :: writes =>
      if err then ([data], Returned true)
      else
        match slice (E:=Empty_set) data n (length data) with
        | Ok rest =>
            let '(handed, o) := Send writes rest in (data :: handed, o)
        | _ => ([data], Faulted)
        end
  end.

(** The bytes the first writes report as written. *)
Definition written (writes : list (nat * bool)) : nat :=
  sum_list (fst <$> writes).

End Socket.

(** * Properties of the checksum engines *)

Section crc_facts.
Import CRC.

Lemma land_pow2_testbit (b k : Z) :
  0 <= k → (0 <? Z.land b (2 ^ k)) = Z.testbit b k.
Proof.
  intros Hk.
  assert (Z.land b (2 ^ k) = if Z.testbit b k then 2 ^ k else 0) as ->.
  { apply Z.bits_inj'. intros n Hn.
    rewrite Z.land_spec, Z.pow2_bits_eqb by lia.
    destruct (Z.eqb_spec k n) as [->|Hne].
    - destruct (Z.testbit b n); [by rewrite Z.pow2_bits_true|by rewrite Z.bits_0].
    - rewrite andb_false_r.
      destruct (Z.testbit b k); [|by rewrite Z.bits_0].
      rewrite Z.pow2_bits_eqb by lia. by apply Z.eqb_neq in Hne as ->. }
  destruct (Z.testbit b k); [|done].
  apply Z.ltb_lt. by apply Z.pow_pos_nonneg.
Qed.

Lemma shiftr_mask_below (k : nat) :
  Z.shiftr (mask_below (S k)) 1 = mask_below k.
Proof.
  destruct k as [|k]; [done|]. cbn [mask_below].
  rewrite Z.shiftr_div_pow2 by lia.
  replace (Z.of_nat (S k)) with (Z.of_nat k + 1) by lia.
  rewrite Z.pow_add_r by lia. change (2 ^ 1) with 2.
  by rewrite Z.div_mul.
Qed.

Lemma crc9_mask_below (bits : Z) :
  1 <= bits <= 8 → crc9_mask bits = mask_below (Z.to_nat bits).
Proof.
  intros Hb.
  assert (bits = 1 ∨ bits = 2 ∨ bits = 3 ∨ bits = 4 ∨
          bits = 5 ∨ bits = 6 ∨ bits = 7 ∨ bits = 8) as Hcases by lia.
  destruct Hcases as [->|[->|[->|[->|[->|[->|[->| ->]]]]]]]; reflexivity.
Qed.

Lemma bits_from_S (b : Z) (k : nat) :
  bits_from b (S k) 0 = Z.testbit b (Z.of_nat k) :: bits_from b k 0.
Proof.
  unfold bits_from. rewrite !Nat.sub_0_r, seq_S, reverse_snoc. done.
Qed.

Lemma crc9_body_fed (b : Z) (k : nat) (crc : Z) :
  Nat.iter k (crc9_body b) (crc, mask_below k)
  = (fold_left crc9_shift (bits_from b k 0) crc, 0).
Proof.
  revert crc. induction k as [|k IH]; intros crc; [done|].
  rewrite Nat.iter_succ_r, bits_from_S. cbn [fold_left].
  rewrite <- IH. f_equal.
  unfold crc9_body. rewrite shiftr_mask_below. cbn [mask_below].
  by rewrite land_pow2_testbit by lia.
Qed.

Lemma crc9_body_drained (b : Z) (n : nat) (crc : Z) :
  Nat.iter n (crc9_body b) (crc, 0)
  = (fold_left crc9_shift (replicate n false) crc, 0).
Proof.
  revert crc. induction n as [|n IH]; intros crc; [done|].
  rewrite Nat.iter_succ_r. cbn [replicate fold_left]. rewrite <- IH.
  unfold crc9_body. by rewrite Z.land_0_r.
Qed.

Lemma iter_split {A} (n k : nat) (f : A → A) (x : A) :
  (k ≤ n)%nat → Nat.iter n f x = Nat.iter (n - k) f (Nat.iter k f x).
Proof.
  intros Hk. rewrite <- Nat.iter_add. f_equal. lia.
Qed.

Lemma crc9_unfold (crc b : Z) (bits : Z) :
  1 <= bits <= 8 →
  crc9 crc b bits = fold_left crc9_shift (crc9_fed b bits) crc.
Proof.
  intros Hb. unfold crc9, crc9_fed.
  rewrite crc9_mask_below by done.
  rewrite (iter_split 8 (Z.to_nat bits)) by lia.
  rewrite crc9_body_fed, crc9_body_drained, fold_left_app.
  done.
Qed.

Lemma length_bits_from (b : Z) (hi lo : nat) :
  length (bits_from b hi lo) = (hi - lo)%nat.
Proof. unfold bits_from. by rewrite length_fmap, length_reverse, length_seq. Qed.

(** C6, as amended: for every byte [b] and every [bits] from 1 to 8, one CRC-9
    update makes exactly eight shifts of the register, whatever [bits] is: the
    first [bits] of them feed the low [bits] bits of [b] (bit [bits-1] first,
    bit 0 last), the other [8-bits] feed a zero bit.  Only for [bits = 8] are
    the bits fed the top bits of the byte and the shifts as many as the bits. *)
Theorem crc9_feeds_low_bits_in_eight_shifts (crc b bits : Z) :
  1 <= bits <= 8 →
  crc9 crc b bits = fold_left crc9_shift (crc9_fed b bits) crc
  ∧ length (crc9_fed b bits) = 8%nat
  ∧ take (Z.to_nat bits) (crc9_fed b bits)
    = (λ k, Z.testbit b (Z.of_nat k)) <$> reverse (seq 0 (Z.to_nat bits))
  ∧ drop (Z.to_nat bits) (crc9_fed b bits) = replicate (8 - Z.to_nat bits) false
  ∧ (bits = 8 → crc9 crc b bits = crc9_top_bits crc b bits).
Proof.
  intros Hb. split; [by apply crc9_unfold|].
  assert (length (bits_from b (Z.to_nat bits) 0) = Z.to_nat bits) as Hlen.
  { rewrite length_bits_from. lia. }
  unfold crc9_fed. repeat split.
  - rewrite length_app, Hlen, length_replicate. lia.
  - rewrite take_app_length'; [|done]. unfold bits_from. by rewrite Nat.sub_0_r.
  - by rewrite drop_app_length'.
  - intros ->. rewrite crc9_unfold by lia. unfold crc9_fed, crc9_top_bits.
    change (8 - Z.to_nat 8)%nat with 0%nat. cbn [replicate].
    by rewrite app_nil_r.
Qed.

Lemma crc9_feeds_low_bits_in_eight_shifts_witness :
  1 <= 3 <= 8
  ∧ crc9 0x1ff 0xA5 3
    = fold_left crc9_shift
        [true; false; true; false; false; false; false; false] 0x1ff.
Proof.
  split; [lia|].
  exact (proj1 (crc9_feeds_low_bits_in_eight_shifts 0x1ff 0xA5 3 ltac:(lia))).
Defined.

(** C6, as the claim states it, fails: with [bits = 1] the top bit of 0x80 is
    not fed at all (the register stays 0, where feeding it gives 1), and a
    register holding 1 is shifted eight times, not once. *)
Lemma crc9_does_not_feed_top_bits :
  (crc9 0 0x80 1 = 0 ∧ crc9_top_bits 0 0x80 1 = 1)
  ∧ (crc9 1 0 1 = 0x100 ∧ crc9_top_bits 1 0 1 = 2).
Proof. repeat split; reflexivity. Qed.

End crc_facts.

(** * Properties of the embedded-signalling parser *)

Section emb_facts.
Import Signalling.
Variable Check : list Z → bool.

Lemma ParseEMB_wrong_length (bits : list Z) :
  length bits ≠ EMBBits →
  ParseEMB Check bits = Err (ExpectedBits EMBBits (length bits)).
Proof.
  intros Hlen. unfold ParseEMB.
  by apply Nat.eqb_neq in Hlen as ->.
Qed.

Lemma ParseEMB_right_length (bits : list Z) :
  length bits = EMBBits →
  ∃ pi, bits !! 4%nat = Some pi ∧
    ((Check bits = false ∧ ParseEMB Check bits = Err ChecksumError)
     ∨ (Check bits = true ∧ pi ≠ 0 ∧ ParseEMB Check bits = Err PiNotZero)
     ∨ (Check bits = true ∧ pi = 0 ∧ is_Ok (ParseEMB Check bits))).
Proof.
  intros Hlen. unfold ParseEMB. rewrite Hlen, Nat.eqb_refl. cbn [negb].
  unfold EMBBits in Hlen.
  destruct bits as [|b0 [|b1 [|b2 [|b3 [|b4 [|b5 [|b6 [|b7 [|b8 [|b9 [|b10
    [|b11 [|b12 [|b13 [|b14 [|b15 [|]]]]]]]]]]]]]]]]]; try done.
  exists b4; split; [reflexivity|].
  destruct (Check _); cbn [negb]; [|by left].
  right. cbn. destruct (Z.eqb_spec b4 0) as [->|Hpi]; cbn.
  - right. repeat split. by eexists.
  - by left.
Qed.

(** C3: [ParseEMB] is total and validating.  It never faults; it returns an
    error exactly when the input is not 16 elements long, or the parity check
    rejects it, or the element at index 4 is not zero (with the error of the
    first of these checks that fails); and whenever it returns a value, the
    element at index 4 of the input was zero. *)
Theorem ParseEMB_total_and_validating (bits : list Z) :
  ParseEMB Check bits ≠ Panic
  ∧ (is_Err (ParseEMB Check bits) ↔
       length bits ≠ 16%nat ∨ Check bits = false
       ∨ ∃ pi, bits !! 4%nat = Some pi ∧ pi ≠ 0)
  ∧ (length bits ≠ 16%nat →
       ParseEMB Check bits = Err (ExpectedBits 16 (length bits)))
  ∧ (length bits = 16%nat → Check bits = false →
       ParseEMB Check bits = Err ChecksumError)
  ∧ (length bits = 16%nat → Check bits = true →
       (∃ pi, bits !! 4%nat = Some pi ∧ pi ≠ 0) →
       ParseEMB Check bits = Err PiNotZero)
  ∧ (∀ emb, ParseEMB Check bits = Ok emb →
       length bits = 16%nat ∧ Check bits = true ∧ bits !! 4%nat = Some 0).
Proof.
  destruct (decide (length bits = EMBBits)) as [Hlen|Hlen].
  - destruct (ParseEMB_right_length bits Hlen) as (pi & Hpi & Hcases).
    unfold EMBBits in Hlen.
    destruct Hcases as [[Hc Hr]|[(Hc & Hnz & Hr)|(Hc & Hz & [emb Hr])]];
      rewrite Hr; split_and!.
    + done.
    + split; [intros _; right; by left|intros _; by eexists].
    + done.
    + done.
    + congruence.
    + done.
    + done.
    + split; [intros _; right; right; by eauto|intros _; by eexists].
    + done.
    + congruence.
    + done.
    + done.
    + done.
    + split; [by intros [e ?]|].
      intros [?|[?|(pi' & ? & ?)]]; [done|congruence|by simplify_eq].
    + done.
    + congruence.
    + intros _ _ (pi' & ? & ?). by simplify_eq.
    + intros emb' _. by subst pi.
  - rewrite (ParseEMB_wrong_length bits Hlen). unfold EMBBits in *.
    split_and!; try done.
    split; [intros _; by left|intros _; by eexists].
Qed.

(** C8: for every input of sixteen bits that passes the three checks,
    [ParseEMB] returns a value whose colour code is the bits at indices 0 to 3
    packed most significant first (so between 0 and 15) and whose LCSS is the
    bits at indices 5 and 6 packed most significant first (so between 0 and
    3). *)
Theorem ParseEMB_fields (bits : list Z) :
  all_bits bits →
  length bits = 16%nat →
  Check bits = true →
  bits !! 4%nat = Some 0 →
  ∃ emb, ParseEMB Check bits = Ok emb
    ∧ ColorCode emb = pack_msb (take 4 bits)
    ∧ 0 <= ColorCode emb <= 15
    ∧ LCSS emb = pack_msb (take 2 (drop 5 bits))
    ∧ 0 <= LCSS emb <= 3.
Proof.
  intros Hbits Hlen Hcheck Hpi. unfold ParseEMB.
  rewrite Hlen, Hcheck. cbn [Nat.eqb EMBBits negb].
  destruct bits as [|b0 [|b1 [|b2 [|b3 [|b4 [|b5 [|b6 [|b7 [|b8 [|b9 [|b10
    [|b11 [|b12 [|b13 [|b14 [|b15 [|]]]]]]]]]]]]]]]]]; try done.
  cbn in Hpi. simplify_eq.
  unfold all_bits in Hbits.
  repeat match goal with
         | H : Forall _ (_ :: _) |- _ => apply Forall_cons in H as [? H]
         end.
  assert (is_bit b0 ∧ is_bit b1 ∧ is_bit b2 ∧ is_bit b3 ∧ is_bit b5 ∧ is_bit b6)
    as ([-> | ->] & [-> | ->] & [-> | ->] & [-> | ->] & [-> | ->] & [-> | ->])
    by done.
  all: eexists; split; [reflexivity|]; split_and!; by vm_compute.
Qed.
End emb_facts.

Lemma ParseEMB_fields_witness :
  ∃ emb, Signalling.ParseEMB Samples.accept_all Samples.emb_bits = Ok emb
    ∧ Signalling.ColorCode emb = 11 ∧ Signalling.LCSS emb = 2.
Proof.
  destruct (ParseEMB_fields Samples.accept_all Samples.emb_bits)
    as (emb & Hemb & Hcc & _ & Hlcss & _).
  - unfold Samples.emb_bits, Signalling.all_bits.
    repeat (apply Forall_cons; split; [unfold Signalling.is_bit; lia|]).
    apply Forall_nil_2.
  - reflexivity.
  - reflexivity.
  - reflexivity.
  - exists emb. repeat split; [exact Hemb|exact Hcc|exact Hlcss].
Defined.

(** * Properties of the frame codec *)

Section slice_facts.
Context {E : Type}.

Lemma index_lookup (s : list Z) (i : nat) (x : Z) :
  s !! i = Some x → index (E:=E) s i = Ok x.
Proof. intros Hx. unfold index. by rewrite Hx. Qed.

Lemma index_lt (s : list Z) (i : nat) :
  (i < length s)%nat → ∃ x, s !! i = Some x ∧ index (E:=E) s i = Ok x.
Proof.
  intros Hi. destruct (lookup_lt_is_Some_2 s i Hi) as [x Hx].
  exists x. split; [done|by apply index_lookup].
Qed.

Lemma slice_in_range (s : list Z) (lo hi : nat) :
  (lo ≤ hi)%nat → (hi ≤ length s)%nat →
  slice (E:=E) s lo hi = Ok (take (hi - lo) (drop lo s)).
Proof. intros Hlo Hhi. unfold slice. by rewrite bool_decide_true. Qed.

Lemma length_slice (s t : list Z) (lo hi : nat) :
  slice (E:=E) s lo hi = Ok t → length t = (hi - lo)%nat.
Proof.
  unfold slice. case_bool_decide as Hr; [|done].
  intros [= <-]. rewrite length_take, length_drop. lia.
Qed.

Lemma Uint32_four (b : list Z) :
  length b = 4%nat → is_Ok (Uint32 (E:=E) b).
Proof.
  intros Hlen. destruct b as [|b0 [|b1 [|b2 [|b3 [|]]]]]; try done.
  by eexists.
Qed.
End slice_facts.

Section frame_facts.
Import Homebrew.

Lemma length_copy (dst src : list Z) (lo hi : nat) :
  (lo ≤ hi)%nat → (hi ≤ length dst)%nat →
  length (copy dst lo hi src) = length dst.
Proof.
  intros Hlo Hhi. unfold copy.
  rewrite !length_app, !length_take, length_drop. lia.
Qed.

Lemma length_PutUint32 (b : list Z) (off : nat) (v : Z) :
  length (PutUint32 b off v) = length b.
Proof. unfold PutUint32. by rewrite !length_insert. Qed.

(** The buffer [Frame.Bytes] returns is 53 bytes long, whatever the frame. *)
Lemma length_Bytes (f : Frame) : length (Bytes f) = 53%nat.
Proof.
  unfold Bytes. cbv zeta.
  set (b := PutUint32 _ 16 _).
  assert (length b = 53%nat) as Hb.
  { unfold b.
    rewrite length_PutUint32, length_insert, length_PutUint32, !length_insert.
    rewrite length_copy; rewrite ?length_replicate; lia. }
  rewrite length_copy; lia.
Qed.

(** The buffer, byte by byte: the payload is copied to offset 21, so offset 20
    keeps the zero of the fresh buffer and the last payload byte is dropped. *)
Lemma Bytes_layout (f : Frame) :
  length (Signature f) = 4%nat →
  length (DMR f) = 33%nat →
  Bytes f =
    Signature f
    ++ [Sequence f;
        uint8 (Z.shiftr (SrcID f) 16); uint8 (Z.shiftr (SrcID f) 8); uint8 (SrcID f);
        uint8 (Z.shiftr (DstID f) 16); uint8 (Z.shiftr (DstID f) 8); uint8 (DstID f);
        uint8 (Z.shiftr (RepeaterID f) 24); uint8 (Z.shiftr (RepeaterID f) 16);
        uint8 (Z.shiftr (RepeaterID f) 8); uint8 (RepeaterID f);
        Flags f;
        uint8 (Z.shiftr (StreamID f) 24); uint8 (Z.shiftr (StreamID f) 16);
        uint8 (Z.shiftr (StreamID f) 8); uint8 (StreamID f)]
    ++ 0 :: take 32 (DMR f).
Proof.
  intros Hsig Hdmr. unfold Bytes.
  destruct f as [sig sq src dst rid fl sid dmr]; cbn in *.
  destruct sig as [|s0 [|s1 [|s2 [|s3 [|]]]]]; try done.
  do 33 (destruct dmr as [|? dmr]; [done|]).
  destruct dmr; [|done].
  reflexivity.
Qed.

(** Three and four bytes, most significant first, put together again. *)
Lemma testbit_uint (v n : Z) :
  0 <= v < 2 ^ n → ∀ i, n <= i → Z.testbit v i = false.
Proof.
  intros [Hv0 Hvn] i Hi.
  destruct (decide (v = 0)) as [->|Hnz]; [apply Z.bits_0|].
  apply Z.bits_above_log2; [done|].
  assert (Z.log2 v < n); [|lia].
  apply Z.log2_lt_pow2; lia.
Qed.

Ltac bytewise v Hv :=
  unfold uint8, uint32;
  apply Z.bits_inj'; intros i Hi;
  repeat first
    [ rewrite Z.lor_spec
    | rewrite Z.testbit_mod_pow2 by lia
    | rewrite Z.shiftl_spec by lia ];
  repeat match goal with
         | |- context [ (?a <? ?b) ] => destruct (Z.ltb_spec a b)
         end;
  repeat match goal with
         | |- context [ Z.testbit (Z.shiftr ?a ?n) ?j ] =>
             first [ rewrite (Z.shiftr_spec a n j) by lia
                   | rewrite (Z.testbit_neg_r (Z.shiftr a n) j) by lia ]
         end;
  repeat match goal with
         | |- context [ Z.testbit v ?j ] =>
             lazymatch j with
             | i => fail
             | _ => replace j with i by lia
             end
         end;
  cbn [andb orb]; rewrite ?orb_false_r;
  first [ reflexivity
        | symmetry; apply (testbit_uint v _ Hv); lia
        | lia ].

Lemma be24_join (v : Z) :
  0 <= v < 2 ^ 24 →
  Z.lor (Z.lor (uint32 (Z.shiftl (uint8 (Z.shiftr v 16)) 16))
               (uint32 (Z.shiftl (uint8 (Z.shiftr v 8)) 8)))
        (uint8 v) = v.
Proof. intros Hv. bytewise v Hv. Qed.

Lemma be32_join (v : Z) :
  0 <= v < 2 ^ 32 →
  Z.lor (Z.lor (Z.lor (uint8 v) (uint32 (Z.shiftl (uint8 (Z.shiftr v 8)) 8)))
               (uint32 (Z.shiftl (uint8 (Z.shiftr v 16)) 16)))
        (uint32 (Z.shiftl (uint8 (Z.shiftr v 24)) 24)) = v.
Proof. intros Hv. bytewise v Hv. Qed.
End frame_facts.

Section parse_frame_facts.
Import Homebrew.

Lemma ParseFrame_wrong_length (data : list Z) :
  length data ≠ 53%nat → ParseFrame data = Err InvalidPacketLength.
Proof. intros Hlen. unfold ParseFrame. by apply Nat.eqb_neq in Hlen as ->. Qed.

Lemma ParseFrame_right_length (data : list Z) :
  length data = 53%nat → is_Ok (ParseFrame data).
Proof.
  intros Hlen. unfold ParseFrame. rewrite Hlen. cbn [Nat.eqb negb].
  rewrite !slice_in_range by lia. cbn [mbind result_bind].
  repeat match goal with
         | |- context [ index data ?i ] =>
             let H := fresh in
             destruct (index_lt (E:=frame_error) data i ltac:(lia)) as (? & _ & H);
             rewrite H; clear H; cbn [mbind result_bind]
         end.
  destruct (Uint32_four (E:=frame_error) (take (15 - 11) (drop 11 data)))
    as [rid ->]; [rewrite length_take, length_drop; lia|].
  destruct (Uint32_four (E:=frame_error) (take (20 - 16) (drop 16 data)))
    as [sid ->]; [rewrite length_take, length_drop; lia|].
  by eexists.
Qed.

(** C7: [ParseFrame] returns the error "invalid packet length" for every
    buffer whose length is not 53, and a frame (no error, no fault) for every
    buffer of 53 bytes. *)
Theorem ParseFrame_length (data : list Z) :
  (length data ≠ 53%nat → ParseFrame data = Err InvalidPacketLength)
  ∧ (length data = 53%nat → ∃ f, ParseFrame data = Ok f).
Proof.
  split; [apply ParseFrame_wrong_length|apply ParseFrame_right_length].
Qed.

(** Decoding what [Bytes] encoded gives every field back but the payload,
    which comes back shifted by one byte: a zero, then the first 32 bytes. *)
Lemma ParseFrame_Bytes (f : Frame) :
  Frame_wf f → SrcID f < 2 ^ 24 → DstID f < 2 ^ 24 →
  ParseFrame (Bytes f)
  = Ok {| Signature := Signature f; Sequence := Sequence f;
          SrcID := SrcID f; DstID := DstID f; RepeaterID := RepeaterID f;
          Flags := Flags f; StreamID := StreamID f;
          DMR := 0 :: take 32 (DMR f) |}.
Proof.
  intros [[Hsig _] _ [Hsrc _] [Hdst _] Hrid _ Hsid [Hdmr _]] Hsrc' Hdst'.
  rewrite Bytes_layout by done.
  destruct f as [sig sq src dst rid fl sid dmr]; cbn in *.
  destruct sig as [|s0 [|s1 [|s2 [|s3 [|]]]]]; try done.
  do 33 (destruct dmr as [|? dmr]; [done|]).
  destruct dmr; [|done].
  cbn [app take]. unfold ParseFrame.
  rewrite !slice_in_range by (cbn [length]; lia).
  cbn -[Z.shiftl Z.shiftr Z.lor uint8 uint32].
  rewrite (be24_join src), (be24_join dst) by lia.
  rewrite (be32_join rid), (be32_join sid) by done.
  reflexivity.
Qed.
End parse_frame_facts.

Section frame_claims.
Import Homebrew.

Lemma sample_frame_wf :
  Frame_wf Samples.frame
  ∧ Samples.frame.(SrcID) < 2 ^ 24 ∧ Samples.frame.(DstID) < 2 ^ 24.
Proof.
  split; [|by vm_compute].
  split; try (split; [reflexivity|]); try (by vm_compute).
  all: cbn; repeat (apply Forall_cons; split; [by vm_compute|]); apply Forall_nil_2.
Qed.

(** C1, at a frame whose payload is 1, 2, ..., 33: the buffer [Bytes] returns
    is 53 bytes long and the header fields fill offsets 0 to 19 as stated, but
    offset 20 holds a zero and the payload starts at offset 21: offsets 20 to
    52 hold 0, 1, ..., 32, and the last payload byte, 33, is not in the
    buffer. *)
Theorem Bytes_writes_payload_at_21 :
  length (Bytes Samples.frame) = 53%nat
  ∧ take 20 (Bytes Samples.frame)
    = Samples.bytes "DMRD"
      ++ [7; 0x20; 0xA1; 0xB2; 0x00; 0xC3; 0xD4; 0x12; 0x34; 0x56; 0x78; 0x13;
          0xCA; 0xFE; 0xBA; 0xBE]
  ∧ DMR Samples.frame = Z.of_nat <$> seq 1 33
  ∧ drop 20 (Bytes Samples.frame) = 0 :: (Z.of_nat <$> seq 1 32)
  ∧ Bytes Samples.frame !! 20%nat = Some 0
  ∧ DMR Samples.frame !! 0%nat = Some 1
  ∧ Bytes Samples.frame !! 52%nat = Some 32
  ∧ DMR Samples.frame !! 32%nat = Some 33.
Proof. split_and!; reflexivity. Qed.

(** C2, at the same frame, which is well formed with 24-bit source and
    destination IDs: decoding its encoding gives every header field back but
    not the payload, which comes back as 0, 1, ..., 32. *)
Theorem ParseFrame_Bytes_loses_payload :
  ParseFrame (Bytes Samples.frame)
  = Ok {| Signature := Signature Samples.frame;
          Sequence := Sequence Samples.frame;
          SrcID := SrcID Samples.frame;
          DstID := DstID Samples.frame;
          RepeaterID := RepeaterID Samples.frame;
          Flags := Flags Samples.frame;
          StreamID := StreamID Samples.frame;
          DMR := 0 :: (Z.of_nat <$> seq 1 32) |}
  ∧ DMR Samples.frame = Z.of_nat <$> seq 1 33
  ∧ (∃ f, ParseFrame (Bytes Samples.frame) = Ok f ∧ DMR f !! 0%nat = Some 0
          ∧ DMR Samples.frame !! 0%nat = Some 1).
Proof.
  split_and!; [reflexivity..|].
  eexists. split_and!; reflexivity.
Qed.

Lemma byte_cases (P : Z → Prop) :
  (∀ n : nat, (n < 256)%nat → P (Z.of_nat n)) → ∀ z, is_uint8 z → P z.
Proof.
  intros HP z [Hz0 Hz]. rewrite <- (Z2Nat.id z) by done.
  apply HP. change (2 ^ 8) with 256 in Hz. lia.
Qed.

(** C9: for every flags byte, [CallType] is bit 1 (0 the group call, 1 the
    unit call), [FrameType] is bits 2 and 3, [DataType] is bits 4 to 7 and
    [Slot] is bit 0 plus 1, so 1 or 2; for the flags byte 0b00010011 the slot
    is 2, the call type is [UnitCall], the frame type is [Voice] and the data
    type is 1. *)
Theorem flag_accessors (f : Frame) :
  is_uint8 (Flags f) →
  (CallType f = bit (Flags f) 1
   ∧ FrameType f = 2 * bit (Flags f) 3 + bit (Flags f) 2
   ∧ DataType f
     = 8 * bit (Flags f) 7 + 4 * bit (Flags f) 6 + 2 * bit (Flags f) 5
       + bit (Flags f) 4
   ∧ Slot f = bit (Flags f) 0 + 1)
  ∧ (CallType f = GroupCall ∨ CallType f = UnitCall)
  ∧ (Slot f = 1 ∨ Slot f = 2)
  ∧ (Flags f = 0x13 →
     Slot f = 2 ∧ CallType f = UnitCall ∧ FrameType f = Voice ∧ DataType f = 1).
Proof.
  intros Hfl.
  assert (CallType f = bit (Flags f) 1
          ∧ FrameType f = 2 * bit (Flags f) 3 + bit (Flags f) 2
          ∧ DataType f
            = 8 * bit (Flags f) 7 + 4 * bit (Flags f) 6 + 2 * bit (Flags f) 5
              + bit (Flags f) 4
          ∧ Slot f = bit (Flags f) 0 + 1) as Hall.
  { unfold CallType, FrameType, DataType, Slot.
    generalize dependent (Flags f). apply byte_cases. intros n Hn.
    do 256 (destruct n as [|n]; [by vm_compute|]). lia. }
  split; [exact Hall|].
  destruct Hall as (Hc & Hf & Hd & Hs).
  split_and!.
  - rewrite Hc. unfold bit, GroupCall, UnitCall.
    destruct (Z.testbit _ _); [by right|by left].
  - rewrite Hs. unfold bit. destruct (Z.testbit _ _); [by right|by left].
  - unfold CallType, FrameType, DataType, Slot. by intros ->.
Qed.

Lemma sample_flags_byte : is_uint8 (Flags Samples.frame).
Proof. by vm_compute. Qed.

Lemma flag_accessors_witness :
  is_uint8 (Flags Samples.frame)
  ∧ Slot Samples.frame = 2 ∧ CallType Samples.frame = UnitCall
  ∧ FrameType Samples.frame = Voice ∧ DataType Samples.frame = 1.
Proof.
  split; [exact sample_flags_byte|].
  exact (proj2 (proj2 (proj2 (flag_accessors Samples.frame sample_flags_byte)))
           eq_refl).
Defined.
End frame_claims.

(** * Properties of the link session *)

Lemma Equal_eq (a b : list Z) : Equal a b = true ↔ a = b.
Proof.
  revert b. induction a as [|x a IH]; intros [|y b]; cbn; try done.
  rewrite andb_true_iff, Z.eqb_eq, IH. split; [by intros [-> ->]|by intros [= -> ->]].
Qed.

Lemma Equal_neq (a b : list Z) : Equal a b = false ↔ a ≠ b.
Proof.
  rewrite <- Equal_eq. destruct (Equal a b); split; congruence.
Qed.

Section login_reply.
Import Homebrew.
Context `{Signatures}.

Lemma slice_prefix (data : list Z) (n : nat) :
  (n ≤ length data)%nat → slice (E:=Empty_set) data 0 n = Ok (take n data).
Proof.
  intros Hn. rewrite slice_in_range by lia.
  by rewrite Nat.sub_0_r, drop_0.
Qed.

Lemma slice_suffix (data : list Z) (n : nat) :
  (n ≤ length data)%nat →
  slice (E:=Empty_set) data n (length data) = Ok (drop n data).
Proof.
  intros Hn. rewrite slice_in_range by lia.
  f_equal. apply take_ge. by rewrite length_drop.
Qed.

(** In [authNone], a datagram of at least 14 bytes that does not start with
    the data-frame signature is judged by the three tests of the source, in
    their order: the hex digits at 6..13, the NAK signature, the ACK
    signature. *)
Lemma parse_packet_login (l : Link) (data : list Z) :
  master_status l = authNone →
  (14 ≤ length data)%nat →
  take 4 data ≠ DMRData →
  parse_packet l data =
    match DecodeString (take 8 (drop 6 data)) with
    | None => Ok (set_status l authFail, Continue, [Log UnexpectedLoginReply])
    | Some repeater =>
        if Equal (take 6 data) MasterNAK then
          Ok (set_status l authFail, Continue, [Log (LoginRefused repeater)])
        else if Equal (take 6 data) MasterACK then
          Ok (set_status (set_secret l (drop 14 data)) authBegin, Continue,
              [Log (LoginAccepted repeater)])
        else
          Ok (set_status l authFail, Continue,
              [Log (UnexpectedLoginReplyFrom repeater)])
    end.
Proof.
  intros Hst Hlen Hsig. unfold parse_packet. rewrite Hst.
  assert ((length data <? 4)%nat = false) as -> by (apply Nat.ltb_ge; lia).
  assert ((length data <? 14)%nat = false) as -> by (apply Nat.ltb_ge; lia).
  rewrite !slice_prefix by lia. cbn [mbind result_bind].
  apply Equal_neq in Hsig as ->.
  rewrite (slice_in_range data 6 14) by lia. cbn [mbind result_bind].
  change (14 - 6)%nat with 8%nat.
  destruct (DecodeString _) as [repeater|]; [|done].
  destruct (Equal (take 6 data) MasterNAK); [done|].
  destruct (Equal (take 6 data) MasterACK); [|done].
  by rewrite slice_suffix by lia.
Qed.

(** A datagram that starts with the data-frame signature makes [parse]
    return, whatever the status below [authDone]; the status stays. *)
Lemma parse_packet_data_before_login (l : Link) (data : list Z) :
  master_status l = authNone ∨ master_status l = authBegin →
  (4 ≤ length data)%nat →
  take 4 data = DMRData →
  parse_packet l data = Ok (l, Return, []).
Proof.
  intros Hst Hlen Hsig. unfold parse_packet.
  assert ((length data <? 4)%nat = false) as -> by (apply Nat.ltb_ge; lia).
  apply Equal_eq in Hsig.
  destruct Hst as [-> | ->]; rewrite (slice_prefix data 4) by lia;
    cbn [mbind result_bind]; by rewrite Hsig.
Qed.

(** C4, as amended: in [authNone], for a datagram of at least 14 bytes whose
    first four bytes are not the data-frame signature, the dispatcher goes on
    and: when the first 6 bytes are the NAK signature the status becomes
    [authFail]; when they are the ACK signature and bytes 6..13 are hex digits
    the status becomes [authBegin] and the secret is exactly the bytes from
    offset 14 on; for any other such datagram the status becomes [authFail].
    A datagram that starts with the data-frame signature leaves the link as it
    is, status [authNone] included, and [parse] returns. *)
Theorem parse_login_reply (l : Link) (data : list Z) :
  MasterACK ≠ MasterNAK →
  master_status l = authNone →
  (14 ≤ length data)%nat →
  (take 4 data = DMRData → parse_packet l data = Ok (l, Return, []))
  ∧ (take 4 data ≠ DMRData →
     ∃ l' evs, parse_packet l data = Ok (l', Continue, evs)
       ∧ (take 6 data = MasterNAK → master_status l' = authFail)
       ∧ (take 6 data = MasterACK →
          is_Some (DecodeString (take 8 (drop 6 data))) →
          master_status l' = authBegin ∧ master_secret l' = drop 14 data)
       ∧ (¬ (take 6 data = MasterACK
             ∧ is_Some (DecodeString (take 8 (drop 6 data)))) →
          master_status l' = authFail)).
Proof.
  intros Hsigs Hst Hlen. split.
  { intros Hdata. apply parse_packet_data_before_login; [by left|lia|done]. }
  intros Hdata.
  rewrite parse_packet_login by done.
  destruct (DecodeString _) as [repeater|].
  - destruct (Equal (take 6 data) MasterNAK) eqn:Hnak.
    { apply Equal_eq in Hnak. eexists _, _. split_and!; [done|done|congruence|done]. }
    apply Equal_neq in Hnak.
    destruct (Equal (take 6 data) MasterACK) eqn:Hack.
    + apply Equal_eq in Hack. eexists _, _. split_and!; [done|done|done|].
      intros []. by split.
    + apply Equal_neq in Hack. eexists _, _. split_and!; done.
  - eexists _, _. split_and!; [done|done| |done].
    intros _ [? ?]. done.
Qed.

(** In [authNone] a datagram of 4 to 13 bytes makes [parse] return; the
    status stays [authNone]. *)
Lemma parse_packet_short_login_reply (l : Link) (data : list Z) :
  master_status l = authNone →
  (4 ≤ length data < 14)%nat →
  parse_packet l data = Ok (l, Return, []).
Proof.
  intros Hst [Hlo Hhi]. unfold parse_packet. rewrite Hst.
  assert ((length data <? 4)%nat = false) as -> by (apply Nat.ltb_ge; lia).
  assert ((length data <? 14)%nat = true) as -> by (apply Nat.ltb_lt; lia).
  rewrite (slice_prefix data 4) by lia. cbn [mbind result_bind].
  by destruct (Equal _ _).
Qed.

(** In [authBegin] the same datagram sets the status to [authFail]. *)
Lemma parse_packet_short_key_reply (l : Link) (data : list Z) :
  master_status l = authBegin →
  (4 ≤ length data < 14)%nat →
  take 4 data ≠ DMRData →
  parse_packet l data
  = Ok (set_status l authFail, Continue, [Log UnexpectedLoginReply]).
Proof.
  intros Hst [Hlo Hhi] Hsig. unfold parse_packet. rewrite Hst.
  assert ((length data <? 4)%nat = false) as -> by (apply Nat.ltb_ge; lia).
  assert ((length data <? 14)%nat = true) as -> by (apply Nat.ltb_lt; lia).
  rewrite (slice_prefix data 4) by lia. cbn [mbind result_bind].
  by apply Equal_neq in Hsig as ->.
Qed.
End login_reply.

Section session_facts.
Import Homebrew.
Context `{Signatures}.
Variable config : list Z.
Variable sha256 : list Z → list Z.

(** [parse] never faults on a packet and never touches the counters. *)
Lemma parse_packet_total (l : Link) (data : list Z) :
  ∃ l' c evs, parse_packet l data = Ok (l', c, evs)
    ∧ keepalive_outstanding l' = keepalive_outstanding l
    ∧ keepalive_sent l' = keepalive_sent l.
Proof.
  unfold parse_packet.
  destruct (Nat.ltb_spec (length data) 4) as [Hlt|Hge]; [by eexists _, _, _|].
  rewrite (slice_prefix data 4) by done.
  destruct (master_status l); cbn [mbind result_bind].
  - destruct (Equal _ DMRData); [by eexists _, _, _|].
    destruct (Nat.ltb_spec (length data) 14) as [Hlt|Hge']; [by eexists _, _, _|].
    rewrite (slice_prefix data 6), (slice_in_range data 6 14) by lia.
    cbn [mbind result_bind].
    destruct (DecodeString _); [|by eexists _, _, _].
    destruct (Equal _ MasterNAK); [by eexists _, _, _|].
    destruct (Equal _ MasterACK); [|by eexists _, _, _].
    rewrite slice_suffix by lia. by eexists _, _, _.
  - destruct (Equal _ DMRData); [by eexists _, _, _|].
    destruct (Nat.ltb_spec (length data) 14) as [Hlt|Hge']; [by eexists _, _, _|].
    rewrite (slice_prefix data 6), (slice_in_range data 6 14) by lia.
    cbn [mbind result_bind].
    destruct (DecodeString _); [|by eexists _, _, _].
    destruct (Equal _ MasterNAK); [by eexists _, _, _|].
    destruct (Equal _ MasterACK); by eexists _, _, _.
  - destruct (Equal _ DMRData); [|by eexists _, _, _].
    destruct (stream l); cbn [negb]; [|by eexists _, _, _].
    destruct (decide (length data = 53%nat)) as [Hlen|Hlen].
    + destruct (ParseFrame_right_length data Hlen) as [f ->]. by eexists _, _, _.
    + rewrite (ParseFrame_wrong_length data Hlen). by eexists _, _, _.
  - by eexists _, _, _.
Qed.

(** [login] itself leaves the link as it found it. *)
Lemma login_pass_link (ok : bool) (l : Link) (previous : authStatus) :
  (login_pass config sha256 ok l previous).1.1 = l.
Proof.
  unfold login_pass.
  destruct (decide _); [done|]. destruct (decide _); [|done].
  destruct (master_status l); try done. by destruct ok.
Qed.

(** One pass of [keepAlive]: both counters go up by one, within their widths,
    and the ping is what the pass hands to [Send]. *)
Lemma keepAlive_pass_counters (ok : bool) (l : Link) :
  ∃ l' again rest,
    keepAlive_pass ok l = (l', again, Send (MasterPing ++ local_id l) ok :: rest)
    ∧ again = ok
    ∧ keepalive_outstanding l' = uint32 (keepalive_outstanding l + 1)
    ∧ keepalive_sent l' = uint64 (keepalive_sent l + 1).
Proof. unfold keepAlive_pass. destruct ok; by eexists _, _, _. Qed.

(** The three steps of [keepAlive], taken with nothing in between, are one
    pass. *)
Lemma keepAlive_steps_pass (ok1 ok2 ok : bool) (s : session) :
  login_at s = InKeepAlive AddOutstanding →
  run config sha256 s [Login ok1; Login ok2; Login ok]
  = Ok ({| link := (keepAlive_pass ok (link s)).1.1;
           dispatcher := dispatcher s;
           login_at := if (keepAlive_pass ok (link s)).1.2
                       then InKeepAlive AddOutstanding else Returned |},
        (keepAlive_pass ok (link s)).2).
Proof.
  intros Hpc. destruct s as [l d pc]. cbn in Hpc. subst pc.
  unfold keepAlive_pass. by destruct ok.
Qed.

Lemma uint32_succ (n : Z) : uint32 (uint32 n + 1) = uint32 (n + 1).
Proof. unfold uint32. by rewrite Z.add_mod_idemp_l by lia. Qed.

Lemma uint32_uint64 (n : Z) : uint32 (uint64 n) = uint32 n.
Proof.
  unfold uint32, uint64. rewrite Z.mod_mod_divide; [done|].
  exists (2 ^ 32). reflexivity.
Qed.

(** A pass of [login] leaves [login] at a point where the counters are level. *)
Lemma login_pass_level (ok : bool) (l : Link) (previous : authStatus) :
  ahead (login_pass config sha256 ok l previous).1.2 = 0.
Proof.
  unfold login_pass.
  destruct (decide _); [done|]. destruct (decide _); [|done].
  destruct (master_status l); try done. by destruct ok.
Qed.

(** A step of the session never faults; it leaves the outstanding counter
    alone or adds one to it; and it keeps the outstanding counter as far ahead
    of the sent counter as the point [login] has reached says. *)
Lemma session_step_counters (s : session) (a : action) :
  ∃ s' evs, session_step config sha256 s a = Ok (s', evs)
    ∧ (keepalive_outstanding (link s') = keepalive_outstanding (link s)
       ∨ keepalive_outstanding (link s')
         = uint32 (keepalive_outstanding (link s) + 1))
    ∧ (keepalive_outstanding (link s)
         = uint32 (keepalive_sent (link s) + ahead (login_at s)) →
       keepalive_outstanding (link s')
         = uint32 (keepalive_sent (link s') + ahead (login_at s'))).
Proof.
  destruct a as [data|ok]; cbn [session_step].
  - destruct (dispatcher s); [|by eexists _, _; split_and!; [|left|]].
    destruct (parse_packet_total (link s) data) as (l' & c & evs & -> & Ho & Hs).
    cbn. eexists _, _. split_and!; [done|by left|].
    cbn. intros Hinv. by rewrite Ho, Hs.
  - destruct (login_at s) as [previous|[| |]|] eqn:Hpc.
    + pose proof (login_pass_link ok (link s) previous) as Hl.
      pose proof (login_pass_level ok (link s) previous) as Hlevel.
      destruct (login_pass _ _ _ _ _) as [[l' pc] evs]. cbn in Hl, Hlevel. subst l'.
      eexists _, _. split_and!; [done|by left|]. cbn. by rewrite Hlevel.
    + eexists _, _. split_and!; [done|by right|]. cbn. intros ->.
      rewrite Z.add_0_r. apply uint32_succ.
    + eexists _, _. split_and!; [done|by left|]. cbn. intros ->.
      by rewrite Z.add_0_r, uint32_uint64.
    + cbn. destruct ok; eexists _, _; (split_and!; [done|by left|done]).
    + eexists _, _. split_and!; [done|by left|]. by rewrite Hpc.
Qed.

Lemma run_counters (s : session) (acts : list action) :
  keepalive_outstanding (link s)
    = uint32 (keepalive_sent (link s) + ahead (login_at s)) →
  ∃ s' evs, run config sha256 s acts = Ok (s', evs)
    ∧ keepalive_outstanding (link s')
      = uint32 (keepalive_sent (link s') + ahead (login_at s')).
Proof.
  revert s. induction acts as [|a acts IH]; intros s Hinv; cbn [run].
  - by eexists _, _.
  - destruct (session_step_counters s a) as (s1 & evs1 & -> & _ & Hstep).
    cbn [mbind result_bind].
    destruct (IH s1 (Hstep Hinv)) as (s' & evs' & -> & Hinv').
    cbn. by eexists _, _.
Qed.

(** C10, as amended: each pass of the keepalive loop adds exactly one to the
    outstanding counter (a [uint32]) and one to the sent counter (a [uint64]),
    in two atomic steps, and then hands the ping to [Send]; no step of a
    session, be it a packet parsed, a pass of [login] or a step of
    [keepAlive], does anything to the outstanding counter but leave it or add
    one to it; and in every state a session reaches from a link fresh from
    [New], whatever it receives, however the goroutines interleave and
    whenever its writes fail, the outstanding counter equals the sent counter
    truncated to 32 bits, but between the two adds of a pass, where it is one
    ahead of it. *)
Theorem keepalive_counters :
  (∀ ok l, ∃ l' again rest,
      keepAlive_pass ok l = (l', again, Send (MasterPing ++ local_id l) ok :: rest)
      ∧ keepalive_outstanding l' = uint32 (keepalive_outstanding l + 1)
      ∧ keepalive_sent l' = uint64 (keepalive_sent l + 1))
  ∧ (∀ ok1 ok2 ok s,
      login_at s = InKeepAlive AddOutstanding →
      ∃ s' evs, run config sha256 s [Login ok1; Login ok2; Login ok] = Ok (s', evs)
        ∧ (link s', evs) = ((keepAlive_pass ok (link s)).1.1,
                            (keepAlive_pass ok (link s)).2))
  ∧ (∀ s a, ∃ s' evs, session_step config sha256 s a = Ok (s', evs)
      ∧ (keepalive_outstanding (link s') = keepalive_outstanding (link s)
         ∨ keepalive_outstanding (link s')
           = uint32 (keepalive_outstanding (link s) + 1)))
  ∧ (∀ key LocalID sf l acts,
      New key LocalID sf = Some l →
      ∃ s evs, run config sha256 (Run l) acts = Ok (s, evs)
        ∧ keepalive_outstanding (link s)
          = uint32 (keepalive_sent (link s) + ahead (login_at s))
        ∧ (login_at s ≠ InKeepAlive AddSent →
           keepalive_outstanding (link s) = uint32 (keepalive_sent (link s)))
        ∧ (login_at s = InKeepAlive AddSent →
           keepalive_outstanding (link s)
           = uint32 (keepalive_sent (link s) + 1))).
Proof.
  split_and!.
  - intros ok l.
    destruct (keepAlive_pass_counters ok l) as (l' & again & rest & ? & _ & ? & ?).
    by eexists _, _, _.
  - intros ok1 ok2 ok s Hpc. eexists _, _.
    split; [by apply keepAlive_steps_pass|done].
  - intros s a.
    destruct (session_step_counters s a) as (s' & evs & ? & ? & _).
    by eexists _, _.
  - intros key LocalID sf l acts Hnew.
    destruct (run_counters (Run l) acts) as (s & evs & Hrun & Hinv).
    { unfold New in Hnew. destruct (LocalID =? 0); [done|]. by simplify_eq. }
    exists s, evs. split_and!; [done|done| |].
    + intros Hpc. rewrite Hinv. f_equal.
      destruct (login_at s) as [?|[| |]|]; cbn; try lia. done.
    + intros Hpc. by rewrite Hinv, Hpc.
Qed.
End session_facts.

Section session_samples.
Import Homebrew Samples.

Lemma acknowledge_is_not_refusal :
  MasterACK (Signatures:=homebrew) ≠ MasterNAK (Signatures:=homebrew).
Proof. intros Heq. vm_compute in Heq. discriminate Heq. Qed.

Lemma ack_reply_is_no_data_frame :
  take 4 ack_reply ≠ DMRData (Signatures:=homebrew).
Proof. intros Heq. vm_compute in Heq. discriminate Heq. Qed.

Lemma parse_login_reply_witness :
  ∃ l' evs,
    parse_packet (H:=homebrew) fresh ack_reply = Ok (l', Continue, evs)
    ∧ master_status l' = authBegin
    ∧ master_secret l' = bytes "deadbeef".
Proof.
  destruct (proj2 (parse_login_reply (H:=homebrew) fresh ack_reply
                     acknowledge_is_not_refusal eq_refl ltac:(cbn; lia))
              ack_reply_is_no_data_frame)
    as (l' & evs & Hparse & _ & Hack & _).
  exists l', evs. split; [exact Hparse|].
  apply Hack; [reflexivity|].
  eexists. vm_compute. reflexivity.
Defined.

(** C4, as the claim states it, fails: in [authNone] a datagram of 53 bytes
    that starts with the data-frame signature (an encoded data frame), whose
    first six bytes are neither the ACK nor the NAK signature, does not set
    the status to [authFail]; the status stays [authNone] and [parse]
    returns. *)
Lemma data_frame_before_login_is_not_failure :
  master_status fresh = authNone
  ∧ length (Bytes frame) = 53%nat
  ∧ take 4 (Bytes frame) = DMRData (Signatures:=homebrew)
  ∧ Equal (take 6 (Bytes frame)) (MasterACK (Signatures:=homebrew)) = false
  ∧ Equal (take 6 (Bytes frame)) (MasterNAK (Signatures:=homebrew)) = false
  ∧ parse_packet (H:=homebrew) fresh (Bytes frame) = Ok (fresh, Return, []).
Proof. split_and!; reflexivity. Qed.

(** C5, at a 10-byte reply to the login request: the status stays
    [authNone] and [parse] returns, so that nothing that arrives afterwards,
    not even a NAK, is looked at; no fault occurs.  In [authBegin] the same
    datagram does set the status to [authFail]. *)
Theorem short_login_reply_leaves_authNone :
  length short_reply = 10%nat
  ∧ master_status fresh = authNone
  ∧ parse_packet (H:=homebrew) fresh short_reply = Ok (fresh, Return, [])
  ∧ (∃ s evs,
       run (H:=homebrew) no_config digest (Run fresh)
         [Login true; Receive short_reply; Receive nak_reply; Login true]
       = Ok (s, evs)
       ∧ master_status (link s) = authNone ∧ dispatcher s = Return)
  ∧ parse_packet (H:=homebrew) (set_status fresh authBegin) short_reply
    = Ok (set_status fresh authFail, Continue, [Log UnexpectedLoginReply]).
Proof.
  split_and!; try reflexivity.
  eexists _, _. split_and!; reflexivity.
Qed.

Lemma keepalive_counters_witness :
  ∃ s evs,
    run (H:=homebrew) no_config digest (Run fresh)
      [Login true; Receive ack_reply; Login true; Receive key_reply;
       Login true; Login true; Login true; Login true; Login true;
       Receive nak_reply; Login true; Login false; Login true]
    = Ok (s, evs)
    ∧ keepalive_outstanding (link s)
      = uint32 (keepalive_sent (link s) + ahead (login_at s)).
Proof.
  destruct (proj2 (proj2 (proj2
              (keepalive_counters (H:=homebrew) no_config digest)))
              (bytes "passw0rd") 2042001 true fresh
              [Login true; Receive ack_reply; Login true; Receive key_reply;
               Login true; Login true; Login true; Login true; Login true;
               Receive nak_reply; Login true; Login false; Login true]
              eq_refl)
    as (s & evs & Hrun & Hinv & _).
  exists s, evs. split; [exact Hrun|exact Hinv].
Defined.

(** C10, as the claim states it, fails: a session that has logged in, sent
    its configuration and made the first atomic add of the first keepalive
    pass has an outstanding counter of 1 and a sent counter of 0, and a
    datagram may be handled by [parse] in that very state. *)
Lemma outstanding_ahead_between_adds :
  ∃ s evs,
    run (H:=homebrew) no_config digest (Run fresh)
      [Login true; Receive ack_reply; Login true; Receive key_reply;
       Login true; Login true; Receive (Bytes frame)]
    = Ok (s, evs)
    ∧ login_at s = InKeepAlive AddSent
    ∧ keepalive_outstanding (link s) = 1
    ∧ keepalive_sent (link s) = 0
    ∧ uint32 (keepalive_sent (link s)) = 0.
Proof. eexists _, _. split_and!; reflexivity. Qed.
End session_samples.

Section more_samples.
Import Signalling Homebrew Samples.

Lemma ParseEMB_total_and_validating_witness :
  ParseEMB accept_all [1; 0; 1; 1; 1; 1; 0; 0; 1; 1; 0; 1; 0; 0; 1; 0]
  = Err PiNotZero.
Proof.
  apply (ParseEMB_total_and_validating accept_all
           [1; 0; 1; 1; 1; 1; 0; 0; 1; 1; 0; 1; 0; 0; 1; 0]).
  - reflexivity.
  - reflexivity.
  - exists 1. split; [reflexivity|lia].
Defined.

Lemma ParseFrame_length_witness :
  (∃ f, ParseFrame (Bytes frame) = Ok f)
  ∧ ParseFrame short_reply = Err InvalidPacketLength.
Proof.
  split.
  - apply (proj2 (ParseFrame_length (Bytes frame))). reflexivity.
  - apply (proj1 (ParseFrame_length short_reply)). cbn. lia.
Defined.
End more_samples.

(** * More on the checksum engines *)

Section register_facts.
Import CRC Register.

Lemma lxor_range (n a b : Z) :
  0 <= a < 2 ^ n → 0 <= b < 2 ^ n → 0 <= Z.lxor a b < 2 ^ n.
Proof.
  intros Ha Hb.
  assert (0 <= Z.lxor a b) as Hnn by (apply Z.lxor_nonneg; lia).
  split; [done|].
  destruct (decide (Z.lxor a b = 0)) as [->|Hnz]; [lia|].
  destruct (decide (0 < n)) as [Hn|Hn].
  - apply Z.log2_lt_pow2; [lia|].
    pose proof (Z.log2_lxor a b ltac:(lia) ltac:(lia)) as Hlog.
    assert (Z.log2 a < n).
    { destruct (decide (a = 0)) as [->|?]; [done|]. apply Z.log2_lt_pow2; lia. }
    assert (Z.log2 b < n).
    { destruct (decide (b = 0)) as [->|?]; [done|]. apply Z.log2_lt_pow2; lia. }
    lia.
  - assert (2 ^ n <= 1).
    { destruct (decide (n = 0)) as [->|?]; [done|]. rewrite Z.pow_neg_r; lia. }
    assert (a = 0) as -> by lia. assert (b = 0) as -> by lia. done.
Qed.

Lemma lfsr_range (w poly crc : Z) (inbit : bool) :
  0 < w → 0 <= poly < 2 ^ w → 0 <= lfsr w poly crc inbit < 2 ^ w.
Proof.
  intros Hw Hpoly. unfold lfsr.
  assert (1 < 2 ^ w).
  { apply (Z.pow_gt_1 2 w); lia. }
  apply lxor_range; [apply lxor_range|].
  - apply Z.mod_pos_bound. lia.
  - destruct inbit; cbn; lia.
  - destruct (Z.testbit _ _); lia.
Qed.

Lemma land_pow2 (a k : Z) :
  0 <= k → Z.land a (2 ^ k) = if Z.testbit a k then 2 ^ k else 0.
Proof.
  intros Hk. apply Z.bits_inj'. intros n Hn.
  rewrite Z.land_spec, Z.pow2_bits_eqb by lia.
  destruct (Z.eqb_spec k n) as [->|Hne].
  - destruct (Z.testbit a n); [by rewrite Z.pow2_bits_true|by rewrite Z.bits_0].
  - rewrite andb_false_r.
    destruct (Z.testbit a k); [|by rewrite Z.bits_0].
    rewrite Z.pow2_bits_eqb by lia. by apply Z.eqb_neq in Hne as ->.
Qed.

Lemma even_succ_lxor (x : Z) : x mod 2 = 0 → x + 1 = Z.lxor x 1.
Proof.
  intros Hx. apply Z.add_nocarry_lxor.
  change 1 with (Z.ones 1). rewrite Z.land_ones by lia. done.
Qed.

Lemma double_mod_even (a w : Z) : 0 < w → ((2 * a) mod 2 ^ w) mod 2 = 0.
Proof.
  intros Hw. rewrite Z.mod_mod_divide.
  - rewrite Z.mul_comm. apply Z.mod_mul. lia.
  - exists (2 ^ (w - 1)). change (2 ^ (w - 1) * 2) with (2 ^ (w - 1) * 2 ^ 1).
    rewrite <- Z.pow_add_r by lia. f_equal. lia.
Qed.

Lemma even_succ_small (x w : Z) :
  0 < w → 0 <= x < 2 ^ w → x mod 2 = 0 → x + 1 < 2 ^ w.
Proof.
  intros Hw Hx Heven.
  assert (2 ^ w = 2 * 2 ^ (w - 1)) as Hpow.
  { rewrite <- Z.pow_succ_r by lia. f_equal. lia. }
  pose proof (Z.div_mod x 2 ltac:(lia)) as Hdiv. lia.
Qed.

Lemma inject_bit (x w v : Z) (inbit : bool) :
  0 < w <= v → 0 <= x < 2 ^ w → x mod 2 = 0 →
  (if inbit then (x + 1) mod 2 ^ v else x) = Z.lxor x (Z.b2z inbit).
Proof.
  intros Hw Hx Heven. destruct inbit; cbn [Z.b2z]; [|by rewrite Z.lxor_0_r].
  rewrite <- even_succ_lxor by done.
  apply Z.mod_small.
  pose proof (even_succ_small x w ltac:(lia) Hx Heven).
  assert (2 ^ w <= 2 ^ v) by (apply Z.pow_le_mono_r; lia). lia.
Qed.

Lemma generator_added (b : bool) (crc poly : Z) :
  (if b then Z.lxor crc poly else crc) = Z.lxor crc (if b then poly else 0).
Proof. destruct b; [done|by rewrite Z.lxor_0_r]. Qed.

Lemma crc16_shift_lfsr (crc : Z) (inbit : bool) :
  crc16_shift crc inbit = lfsr 16 0x1021 crc inbit.
Proof.
  unfold crc16_shift, lfsr, uint16. cbv zeta.
  rewrite Z.shiftl_mul_pow2 by lia. rewrite (Z.mul_comm crc).
  change (2 ^ 1) with 2.
  rewrite (inject_bit _ 16 16) by
    (try apply Z.mod_pos_bound; try apply double_mod_even; lia).
  rewrite generator_added. f_equal.
  change 32768 with (2 ^ 15). rewrite land_pow2 by lia.
  change (16 - 1) with 15. by destruct (Z.testbit crc 15).
Qed.

Lemma crc32_shift_lfsr (crc : Z) (inbit : bool) :
  crc32_shift crc inbit = lfsr 32 0x04c11db7 crc inbit.
Proof.
  unfold crc32_shift, lfsr, uint32. cbv zeta.
  rewrite Z.shiftl_mul_pow2 by lia. rewrite (Z.mul_comm crc).
  change (2 ^ 1) with 2.
  rewrite (inject_bit _ 32 32) by
    (try apply Z.mod_pos_bound; try apply double_mod_even; lia).
  rewrite generator_added. f_equal.
  change 2147483648 with (2 ^ 31). rewrite land_pow2 by lia.
  change (32 - 1) with 31. by destruct (Z.testbit crc 31).
Qed.

Lemma crc9_shift_lfsr (crc : Z) (inbit : bool) :
  crc9_shift crc inbit = lfsr 9 0x59 crc inbit.
Proof.
  unfold crc9_shift, lfsr, uint16. cbv zeta.
  rewrite Z.shiftl_mul_pow2 by lia. rewrite (Z.mul_comm crc).
  change (2 ^ 1) with 2.
  change 511 with (Z.ones 9). rewrite Z.land_ones by lia.
  rewrite Z.mod_mod_divide by (exists (2 ^ 7); reflexivity).
  rewrite (inject_bit _ 9 16) by
    (try apply Z.mod_pos_bound; try apply double_mod_even; lia).
  rewrite generator_added. f_equal.
  change 256 with (2 ^ 8). rewrite land_pow2 by lia.
  change (9 - 1) with 8. by destruct (Z.testbit crc 8).
Qed.
End register_facts.

Section engine_facts.
Import CRC Register.

Lemma body_fed (shift : Z → bool → Z) (b : Z) (k : nat) (crc : Z) :
  Nat.iter k (body shift b) (crc, mask_below k)
  = (fold_left shift (bits_from b k 0) crc, 0).
Proof.
  revert crc. induction k as [|k IH]; intros crc; [done|].
  rewrite Nat.iter_succ_r, bits_from_S. cbn [fold_left].
  rewrite <- IH. f_equal.
  unfold body. rewrite shiftr_mask_below. cbn [mask_below].
  by rewrite land_pow2_testbit by lia.
Qed.

Lemma fold_left_pointwise {A B} (f g : A → B → A) (l : list B) (a : A) :
  (∀ x y, f x y = g x y) → fold_left f l a = fold_left g l a.
Proof.
  intros Hfg. revert a. induction l as [|y l IH]; intros a; [done|].
  cbn. by rewrite Hfg, IH.
Qed.

(** An update of each engine is eight shifts of its register, one for each
    bit of the byte, the highest first. *)
Lemma crc16_fed (crc b : Z) :
  crc16 crc b = fold_left (lfsr 16 0x1021) (byte_bits b) crc.
Proof.
  unfold crc16. change (crc16_body b) with (body crc16_shift b).
  change 128 with (mask_below 8). rewrite body_fed. cbn [fst].
  apply fold_left_pointwise, crc16_shift_lfsr.
Qed.

Lemma crc32_fed (crc b : Z) :
  crc32 crc b = fold_left (lfsr 32 0x04c11db7) (byte_bits b) crc.
Proof.
  unfold crc32. change (crc32_body b) with (body crc32_shift b).
  change 128 with (mask_below 8). rewrite body_fed. cbn [fst].
  apply fold_left_pointwise, crc32_shift_lfsr.
Qed.

Lemma crc9_fed_whole (crc b : Z) :
  crc9 crc b 8 = fold_left (lfsr 9 0x59) (byte_bits b) crc.
Proof.
  rewrite crc9_unfold by lia. unfold crc9_fed.
  change (Z.to_nat 8) with 8%nat. cbn [Nat.sub replicate].
  rewrite app_nil_r. apply fold_left_pointwise, crc9_shift_lfsr.
Qed.

Lemma iter_fold_false (shift : Z → bool → Z) (n : nat) (crc : Z) :
  Nat.iter n (λ crc, shift crc false) crc
  = fold_left shift (replicate n false) crc.
Proof.
  revert crc. induction n as [|n IH]; intros crc; [done|].
  rewrite Nat.iter_succ_r. cbn. apply IH.
Qed.

Lemma fold_lfsr_range (w poly : Z) (bits : list bool) (crc : Z) :
  0 < w → 0 <= poly < 2 ^ w → bits ≠ [] →
  0 <= fold_left (lfsr w poly) bits crc < 2 ^ w.
Proof.
  intros Hw Hpoly Hne.
  destruct (exists_last Hne) as (front & last & ->).
  rewrite fold_left_app. cbn. by apply lfsr_range.
Qed.

(** X1: whatever the accumulator held and whatever byte is fed, an update or
    a finalization leaves the register within its width: 9 bits for CRC-9
    (for every [bits], and after [crc9end] with at least one shift), 16 bits
    for CRC-16, 32 bits for CRC-32. *)
Theorem crc_registers_stay_in_width (crc b bits : Z) :
  0 <= crc9 crc b bits < 2 ^ 9
  ∧ (1 <= bits → 0 <= crc9end crc bits < 2 ^ 9)
  ∧ 0 <= crc16 crc b < 2 ^ 16
  ∧ 0 <= crc16end crc < 2 ^ 16
  ∧ 0 <= crc32 crc b < 2 ^ 32
  ∧ 0 <= crc32end crc < 2 ^ 32.
Proof.
  refine (conj _ (conj _ (conj _ (conj _ (conj _ _))))).
  - unfold crc9. rewrite Nat.iter_succ.
    destruct (Nat.iter 7 _ _) as [c v].
    cbn [crc9_body fst]. rewrite crc9_shift_lfsr. by apply lfsr_range.
  - intros Hbits. unfold crc9end.
    destruct (Z.to_nat bits) as [|n] eqn:Hn; [lia|].
    rewrite Nat.iter_succ. rewrite crc9_shift_lfsr. by apply lfsr_range.
  - rewrite crc16_fed. by apply fold_lfsr_range.
  - unfold crc16end. rewrite Nat.iter_succ. rewrite crc16_shift_lfsr. by apply lfsr_range.
  - rewrite crc32_fed. by apply fold_lfsr_range.
  - unfold crc32end. rewrite Nat.iter_succ. rewrite crc32_shift_lfsr. by apply lfsr_range.
Qed.



Lemma byte_bits_zero : byte_bits 0 = replicate 8 false.
Proof. reflexivity. Qed.

Lemma crc16_zero_byte (crc : Z) :
  crc16 crc 0 = fold_left crc16_shift (replicate 8 false) crc.
Proof.
  unfold crc16. change (crc16_body 0) with (body crc16_shift 0).
  change 128 with (mask_below 8). rewrite body_fed. cbn [fst].
  by rewrite <- byte_bits_zero.
Qed.

Lemma crc32_zero_byte (crc : Z) :
  crc32 crc 0 = fold_left crc32_shift (replicate 8 false) crc.
Proof.
  unfold crc32. change (crc32_body 0) with (body crc32_shift 0).
  change 128 with (mask_below 8). rewrite body_fed. cbn [fst].
  by rewrite <- byte_bits_zero.
Qed.

(** X3: finalizing is feeding zero bytes.  [crc16end] does to the register
    what two updates with a zero byte do, [crc32end] what four do, and
    [crc9end(crc, 8)] what one update with a zero byte does, whatever its
    [bits]; and flushing [m] bits and then [n] bits is flushing [m+n]. *)
Theorem finalize_is_zero_bytes (crc bits m n : Z) :
  crc16end crc = crc16 (crc16 crc 0) 0
  ∧ crc32end crc = crc32 (crc32 (crc32 (crc32 crc 0) 0) 0) 0
  ∧ crc9end crc 8 = crc9 crc 0 bits
  ∧ (0 <= m → 0 <= n → crc9end (crc9end crc m) n = crc9end crc (m + n)).
Proof.
  split_and!.
  - unfold crc16end. rewrite !crc16_zero_byte, <- !fold_left_app.
    by rewrite iter_fold_false.
  - unfold crc32end. rewrite !crc32_zero_byte, <- !fold_left_app.
    by rewrite iter_fold_false.
  - unfold crc9, crc9end. change (Z.to_nat 8) with 8%nat.
    rewrite iter_fold_false.
    generalize (crc9_mask bits). intros v.
    assert (∀ k st,
      fst (Nat.iter k (crc9_body 0) st)
      = fold_left crc9_shift (replicate k false) (fst st)) as Hzero.
    { induction k as [|k IH]; intros [c u]; [done|].
      rewrite Nat.iter_succ_r. cbn [replicate fold_left].
      unfold crc9_body at 2. rewrite Z.land_0_l. apply IH. }
    symmetry. apply (Hzero 8%nat (crc, v)).
  - intros Hm Hn. unfold crc9end.
    rewrite Z2Nat.inj_add by lia. rewrite (Nat.add_comm (Z.to_nat m)).
    by rewrite Nat.iter_add.
Qed.
End engine_facts.

Section linearity.
Import CRC Register.

Lemma lfsr_linear (w poly a b : Z) (i j : bool) :
  0 < w →
  lfsr w poly (Z.lxor a b) (xorb i j)
  = Z.lxor (lfsr w poly a i) (lfsr w poly b j).
Proof.
  intros Hw. unfold lfsr.
  rewrite (Z.lxor_spec a b (w - 1)).
  rewrite !(Z.mul_comm 2). change 2 with (2 ^ 1).
  rewrite <- !Z.shiftl_mul_pow2 by lia.
  apply Z.bits_inj'. intros n Hn.
  destruct i, j, (Z.testbit a (w - 1)), (Z.testbit b (w - 1));
    cbn [xorb Z.b2z];
    rewrite !Z.lxor_spec, !Z.testbit_mod_pow2, !Z.shiftl_spec, ?Z.lxor_spec,
      ?Z.bits_0 by lia;
    destruct (n <? w), (Z.testbit a (n - 1)), (Z.testbit b (n - 1)),
      (Z.testbit poly n), (Z.testbit 1 n); reflexivity.
Qed.

Lemma feed_linear (w poly : Z) (l1 l2 : list bool) (a b : Z) :
  0 < w → length l1 = length l2 →
  fold_left (lfsr w poly) (zip_with xorb l1 l2) (Z.lxor a b)
  = Z.lxor (fold_left (lfsr w poly) l1 a) (fold_left (lfsr w poly) l2 b).
Proof.
  intros Hw. revert l2 a b.
  induction l1 as [|i l1 IH]; intros [|j l2] a b Hlen; try done.
  cbn. rewrite lfsr_linear by done. apply IH. by injection Hlen.
Qed.

Lemma byte_bits_lxor (x y : Z) :
  byte_bits (Z.lxor x y) = zip_with xorb (byte_bits x) (byte_bits y).
Proof.
  unfold byte_bits, bits_from. cbn. by rewrite !Z.lxor_spec.
Qed.

Lemma length_byte_bits (b : Z) : length (byte_bits b) = 8%nat.
Proof. reflexivity. Qed.

Lemma crc16_linear (a b x y : Z) :
  crc16 (Z.lxor a b) (Z.lxor x y) = Z.lxor (crc16 a x) (crc16 b y).
Proof. rewrite !crc16_fed, byte_bits_lxor. by apply feed_linear. Qed.

Lemma crc32_linear (a b x y : Z) :
  crc32 (Z.lxor a b) (Z.lxor x y) = Z.lxor (crc32 a x) (crc32 b y).
Proof. rewrite !crc32_fed, byte_bits_lxor. by apply feed_linear. Qed.

Lemma crc9_linear (a b x y : Z) :
  crc9 (Z.lxor a b) (Z.lxor x y) 8 = Z.lxor (crc9 a x 8) (crc9 b y 8).
Proof. rewrite !crc9_fed_whole, byte_bits_lxor. by apply feed_linear. Qed.

(** Linear over messages, for any update that is linear over bytes. *)
Lemma update_linear (upd : Z → Z → Z) (m1 m2 : list Z) (a b : Z) :
  (∀ a b x y, upd (Z.lxor a b) (Z.lxor x y) = Z.lxor (upd a x) (upd b y)) →
  length m1 = length m2 →
  fold_left upd (xor_bytes m1 m2) (Z.lxor a b)
  = Z.lxor (fold_left upd m1 a) (fold_left upd m2 b).
Proof.
  intros Hupd. revert m2 a b.
  induction m1 as [|x m1 IH]; intros [|y m2] a b Hlen; try done.
  cbn. rewrite Hupd. apply IH. by injection Hlen.
Qed.

(** X4: the engines are linear over GF(2).  Updating the sum (XOR) of two
    registers with the sum of two bytes gives the sum of the two updates, for
    CRC-16, for CRC-32 and for CRC-9 fed whole bytes; and so the register
    after the sum of two messages of one length, from the sum of two
    registers, is the sum of the registers after each. *)
Theorem crc_updates_are_linear (a b x y : Z) (m1 m2 : list Z) :
  crc16 (Z.lxor a b) (Z.lxor x y) = Z.lxor (crc16 a x) (crc16 b y)
  ∧ crc32 (Z.lxor a b) (Z.lxor x y) = Z.lxor (crc32 a x) (crc32 b y)
  ∧ crc9 (Z.lxor a b) (Z.lxor x y) 8 = Z.lxor (crc9 a x 8) (crc9 b y 8)
  ∧ (length m1 = length m2 →
     fold_left crc16 (xor_bytes m1 m2) (Z.lxor a b)
     = Z.lxor (fold_left crc16 m1 a) (fold_left crc16 m2 b))
  ∧ (length m1 = length m2 →
     fold_left crc32 (xor_bytes m1 m2) (Z.lxor a b)
     = Z.lxor (fold_left crc32 m1 a) (fold_left crc32 m2 b)).
Proof.
  split_and!.
  - apply crc16_linear.
  - apply crc32_linear.
  - apply crc9_linear.
  - apply update_linear. intros. apply crc16_linear.
  - apply update_linear. intros. apply crc32_linear.
Qed.
End linearity.

Section self_check.
Import CRC Register.

Lemma lfsr_small (w poly crc : Z) (i : bool) :
  0 < w → 0 <= crc < 2 ^ (w - 1) →
  lfsr w poly crc i = 2 * crc + Z.b2z i.
Proof.
  intros Hw Hcrc. unfold lfsr.
  rewrite (testbit_uint crc (w - 1)) by (done || lia).
  rewrite Z.lxor_0_r.
  assert (2 ^ w = 2 * 2 ^ (w - 1)) as Hpow.
  { rewrite <- Z.pow_succ_r by lia. f_equal. lia. }
  rewrite Z.mod_small by lia.
  destruct i; cbn [Z.b2z]; [|by rewrite Z.lxor_0_r, Z.add_0_r].
  symmetry. apply even_succ_lxor.
  rewrite Z.mul_comm. apply Z.mod_mul. lia.
Qed.

Lemma feed_small (w poly : Z) (bits : list bool) (crc : Z) :
  0 <= crc < 2 ^ (w - Z.of_nat (length bits)) →
  Z.of_nat (length bits) <= w →
  fold_left (lfsr w poly) bits crc
  = fold_left (λ acc b, 2 * acc + Z.b2z b) bits crc.
Proof.
  revert crc. induction bits as [|i bits IH]; intros crc Hcrc Hlen; [done|].
  cbn [fold_left]. cbn [length] in Hcrc, Hlen.
  assert (2 ^ (w - Z.of_nat (length bits))
          = 2 * 2 ^ (w - Z.of_nat (S (length bits)))) as Hpow.
  { rewrite <- Z.pow_succ_r by lia. f_equal. lia. }
  assert (2 ^ (w - Z.of_nat (S (length bits))) <= 2 ^ (w - 1))
    by (apply Z.pow_le_mono_r; lia).
  rewrite lfsr_small by lia.
  apply IH; [|lia]. destruct i; cbn [Z.b2z]; lia.
Qed.

Lemma bits_value_from (bits : list bool) (acc : Z) :
  fold_left (λ acc b, 2 * acc + Z.b2z b) bits acc
  = acc * 2 ^ Z.of_nat (length bits) + bits_value bits.
Proof.
  unfold bits_value. revert acc.
  induction bits as [|i bits IH]; intros acc; [cbn; lia|].
  cbn [fold_left length]. rewrite IH, (IH (2 * 0 + Z.b2z i)).
  rewrite Nat2Z.inj_succ, Z.pow_succ_r by lia. lia.
Qed.

Lemma byte_bits_value (b : Z) : is_uint8 b → bits_value (byte_bits b) = b.
Proof.
  revert b. apply byte_cases. intros n Hn.
  do 256 (destruct n as [|n]; [reflexivity|]). lia.
Qed.

(** A register that has room for eight more bits takes a byte in whole. *)
Lemma feed_byte_small (w poly crc b : Z) :
  8 <= w → 0 <= crc < 2 ^ (w - 8) → is_uint8 b →
  fold_left (lfsr w poly) (byte_bits b) crc = crc * 256 + b.
Proof.
  intros Hw Hcrc Hb.
  rewrite feed_small by (rewrite length_byte_bits; (done || lia)).
  rewrite bits_value_from, length_byte_bits, byte_bits_value by done.
  reflexivity.
Qed.

Lemma shiftr_land_byte (c k : Z) :
  0 <= k → is_uint8 (Z.land (Z.shiftr c k) 0xff).
Proof.
  intros Hk. change 255 with (Z.ones 8). rewrite Z.land_ones by lia.
  apply Z.mod_pos_bound. lia.
Qed.

Lemma crc16_be16 (c : Z) :
  0 <= c < 2 ^ 16 → fold_left crc16 (be16 c) 0 = c.
Proof.
  intros Hc. unfold be16. cbn [fold_left]. rewrite !crc16_fed.
  assert (0 <= Z.shiftr c 8 < 2 ^ 8) as Hhi.
  { rewrite Z.shiftr_div_pow2 by lia. split; [apply Z.div_pos; lia|].
    apply Z.div_lt_upper_bound; lia. }
  rewrite (feed_byte_small 16 _ 0) by (done || lia).
  rewrite (feed_byte_small 16) by
    (try (pose proof (shiftr_land_byte c 0 ltac:(lia)) as Hb;
          rewrite Z.shiftr_0_r in Hb; exact Hb); lia).
  change 255 with (Z.ones 8). rewrite Z.land_ones, Z.shiftr_div_pow2 by lia.
  pose proof (Z.div_mod c (2 ^ 8) ltac:(lia)). lia.
Qed.

Lemma shiftr_join (c k : Z) :
  0 <= k → Z.shiftr c (k + 8) * 256 + Z.land (Z.shiftr c k) 0xff = Z.shiftr c k.
Proof.
  intros Hk. rewrite <- Z.shiftr_shiftr by lia.
  change 255 with (Z.ones 8). rewrite Z.land_ones by lia.
  rewrite (Z.shiftr_div_pow2 _ 8) by lia.
  pose proof (Z.div_mod (Z.shiftr c k) (2 ^ 8) ltac:(lia)). lia.
Qed.

Lemma shiftr_range (c n k : Z) :
  0 <= k <= n → 0 <= c < 2 ^ n → 0 <= Z.shiftr c k < 2 ^ (n - k).
Proof.
  intros Hk Hc. rewrite Z.shiftr_div_pow2 by lia.
  assert (0 < 2 ^ k) by (apply Z.pow_pos_nonneg; lia).
  split; [apply Z.div_pos; lia|].
  apply Z.div_lt_upper_bound; [done|].
  rewrite <- Z.pow_add_r by lia.
  replace (k + (n - k)) with n by lia. lia.
Qed.

Lemma crc32_be32 (c : Z) :
  0 <= c < 2 ^ 32 → fold_left crc32 (be32 c) 0 = c.
Proof.
  intros Hc. unfold be32. cbn [fold_left]. rewrite !crc32_fed.
  assert (∀ crc b, 0 <= crc < 16777216 → is_uint8 b →
            fold_left (lfsr 32 79764919) (byte_bits b) crc = crc * 256 + b)
    as Hfeed by (intros; by apply feed_byte_small).
  pose proof (shiftr_range c 32 24 ltac:(lia) Hc) as H24.
  pose proof (shiftr_range c 32 16 ltac:(lia) Hc) as H16.
  pose proof (shiftr_range c 32 8 ltac:(lia) Hc) as H8.
  change (2 ^ (32 - 24)) with 256 in H24.
  change (2 ^ (32 - 16)) with 65536 in H16.
  change (2 ^ (32 - 8)) with 16777216 in H8.
  pose proof (shiftr_land_byte c 0 ltac:(lia)) as Hb.
  pose proof (shiftr_join c 0 ltac:(lia)) as Hj.
  rewrite Z.shiftr_0_r in Hb, Hj.
  rewrite (Hfeed 0 (Z.shiftr c 24)) by (unfold is_uint8; lia).
  rewrite Z.mul_0_l, Z.add_0_l.
  rewrite (Hfeed (Z.shiftr c 24)) by (try apply shiftr_land_byte; lia).
  pose proof (shiftr_join c 16 ltac:(lia)) as Hj16.
  change (16 + 8) with 24 in Hj16. rewrite Hj16.
  rewrite (Hfeed (Z.shiftr c 16)) by (try apply shiftr_land_byte; lia).
  pose proof (shiftr_join c 8 ltac:(lia)) as Hj8.
  change (8 + 8) with 16 in Hj8. rewrite Hj8.
  rewrite (Hfeed (Z.shiftr c 8)) by (done || lia).
  exact Hj.
Qed.

Lemma crc16_zeros (n : nat) : fold_left crc16 (replicate n 0) 0 = 0.
Proof.
  induction n as [|n IH]; [done|]. cbn [replicate fold_left].
  rewrite crc16_fed, (feed_byte_small 16 0x1021 0 0) by (done || lia).
  apply IH.
Qed.

Lemma crc32_zeros (n : nat) : fold_left crc32 (replicate n 0) 0 = 0.
Proof.
  induction n as [|n IH]; [done|]. cbn [replicate fold_left].
  rewrite crc32_fed, (feed_byte_small 32 0x04c11db7 0 0) by (done || lia).
  apply IH.
Qed.

Lemma xor_bytes_zeros_r (m : list Z) :
  xor_bytes m (replicate (length m) 0) = m.
Proof.
  unfold xor_bytes. induction m as [|x m IH]; [done|].
  cbn. by rewrite Z.lxor_0_r, IH.
Qed.

Lemma xor_bytes_zeros_l (m : list Z) :
  xor_bytes (replicate (length m) 0) m = m.
Proof.
  unfold xor_bytes. induction m as [|x m IH]; [done|].
  cbn. by rewrite IH.
Qed.

(** A message followed by a checksum is the sum of the message followed by
    as many zero bytes and of the checksum behind as many zero bytes as the
    message is long. *)
Lemma append_as_sum (m c : list Z) :
  m ++ c
  = xor_bytes (m ++ replicate (length c) 0) (replicate (length m) 0 ++ c).
Proof.
  unfold xor_bytes. rewrite zip_with_app by (by rewrite length_replicate).
  fold (xor_bytes m (replicate (length m) 0)).
  fold (xor_bytes (replicate (length c) 0) c).
  by rewrite xor_bytes_zeros_r, xor_bytes_zeros_l.
Qed.

Lemma crc16end_range (crc : Z) : 0 <= crc16end crc < 2 ^ 16.
Proof.
  unfold crc16end. rewrite Nat.iter_succ, crc16_shift_lfsr.
  by apply lfsr_range.
Qed.

Lemma crc32end_range (crc : Z) : 0 <= crc32end crc < 2 ^ 32.
Proof.
  unfold crc32end. rewrite Nat.iter_succ, crc32_shift_lfsr.
  by apply lfsr_range.
Qed.

Lemma crc16end_zero_bytes (crc : Z) :
  crc16end crc = fold_left crc16 (replicate 2 0) crc.
Proof.
  unfold crc16end. cbn [replicate fold_left].
  rewrite !crc16_zero_byte, <- !fold_left_app. by rewrite iter_fold_false.
Qed.

Lemma crc32end_zero_bytes (crc : Z) :
  crc32end crc = fold_left crc32 (replicate 4 0) crc.
Proof.
  unfold crc32end. cbn [replicate fold_left].
  rewrite !crc32_zero_byte, <- !fold_left_app. by rewrite iter_fold_false.
Qed.

(** X5: CRC-16 checks itself.  Run the engine over a message from any
    register, finalize, and append the two bytes of the result to the message:
    run over that from the same register, the engine ends at zero.  More
    generally, when those bytes are then corrupted by adding (XOR) an error
    pattern [e] of the same length, the engine ends where it ends on [e] alone
    from a zero register, whatever the message and the register were. *)
Theorem crc16_checks_itself (crc : Z) (msg e : list Z) :
  fold_left crc16 (msg ++ be16 (crc16end (fold_left crc16 msg crc))) crc = 0
  ∧ (length e = length (msg ++ be16 (crc16end (fold_left crc16 msg crc))) →
     fold_left crc16
       (xor_bytes (msg ++ be16 (crc16end (fold_left crc16 msg crc))) e) crc
     = fold_left crc16 e 0).
Proof.
  set (sum := crc16end (fold_left crc16 msg crc)).
  assert (fold_left crc16 (msg ++ be16 sum) crc = 0) as Hzero.
  { rewrite (append_as_sum msg (be16 sum)).
    rewrite <- (Z.lxor_0_r crc) at 1.
    rewrite update_linear;
      [|intros; apply crc16_linear|by rewrite !length_app, !length_replicate].
    rewrite !fold_left_app, crc16_zeros.
    change (length (be16 sum)) with 2%nat.
    rewrite <- crc16end_zero_bytes. fold sum.
    rewrite crc16_be16 by apply crc16end_range.
    apply Z.lxor_nilpotent. }
  split; [done|]. intros Hlen.
  rewrite <- (Z.lxor_0_r crc) at 1.
  rewrite update_linear; [|intros; apply crc16_linear|done].
  by rewrite Hzero, Z.lxor_0_l.
Qed.

(** X6: CRC-32 checks itself in the same way, with the four bytes of the
    finalized register appended. *)
Theorem crc32_checks_itself (crc : Z) (msg e : list Z) :
  fold_left crc32 (msg ++ be32 (crc32end (fold_left crc32 msg crc))) crc = 0
  ∧ (length e = length (msg ++ be32 (crc32end (fold_left crc32 msg crc))) →
     fold_left crc32
       (xor_bytes (msg ++ be32 (crc32end (fold_left crc32 msg crc))) e) crc
     = fold_left crc32 e 0).
Proof.
  set (sum := crc32end (fold_left crc32 msg crc)).
  assert (fold_left crc32 (msg ++ be32 sum) crc = 0) as Hzero.
  { rewrite (append_as_sum msg (be32 sum)).
    rewrite <- (Z.lxor_0_r crc) at 1.
    rewrite update_linear;
      [|intros; apply crc32_linear|by rewrite !length_app, !length_replicate].
    rewrite !fold_left_app, crc32_zeros.
    change (length (be32 sum)) with 4%nat.
    rewrite <- crc32end_zero_bytes. fold sum.
    rewrite crc32_be32 by apply crc32end_range.
    apply Z.lxor_nilpotent. }
  split; [done|]. intros Hlen.
  rewrite <- (Z.lxor_0_r crc) at 1.
  rewrite update_linear; [|intros; apply crc32_linear|done].
  by rewrite Hzero, Z.lxor_0_l.
Qed.

(** X7: from a zero register the engines do not see leading zero bytes: any
    number of them before a message leaves the register where the message
    alone leaves it. *)
Theorem leading_zero_bytes_are_not_seen (n : nat) (msg : list Z) :
  fold_left crc16 (replicate n 0 ++ msg) 0 = fold_left crc16 msg 0
  ∧ fold_left crc32 (replicate n 0 ++ msg) 0 = fold_left crc32 msg 0.
Proof.
  by rewrite !fold_left_app, crc16_zeros, crc32_zeros.
Qed.
End self_check.

(** * The bits taken out of a burst *)

Section burst_facts.
Import Signalling Bursts.

Lemma copy_into_zeros (n h : nat) (a : list Z) :
  length a = h → (h ≤ n)%nat →
  copy (replicate n 0) 0 h a = a ++ replicate (n - h) 0.
Proof.
  intros Ha Hh. unfold copy.
  rewrite Nat.sub_0_r, Ha, Nat.min_id. cbn [take app Nat.add].
  rewrite (take_ge a) by lia. by rewrite drop_replicate.
Qed.

Lemma copy_second_half (n h : nat) (a b : list Z) :
  length a = h → (h ≤ n)%nat →
  copy (a ++ replicate (n - h) 0) h n b
  = a ++ take (n - h) b ++ replicate (n - h - length b) 0.
Proof.
  intros Ha Hh. unfold copy.
  rewrite take_app_length' by done.
  rewrite drop_app_add' by done. rewrite drop_replicate.
  f_equal. f_equal.
  - destruct (decide (n - h ≤ length b)%nat).
    + by rewrite Nat.min_l.
    + rewrite Nat.min_r by lia. by rewrite !take_ge by lia.
  - f_equal. lia.
Qed.

Lemma ExtractEMBBits_in_range (half frag : nat) (sync : list Z) :
  (half ≤ EMBBits)%nat → (half + frag + half ≤ length sync)%nat →
  ExtractEMBBitsFromSyncBits half frag sync
  = Ok (take half sync ++ take (EMBBits - half) (take half (drop (half + frag) sync))
        ++ replicate (EMBBits - half - half) 0).
Proof.
  intros Hhalf Hlen. unfold ExtractEMBBitsFromSyncBits. cbv zeta.
  assert (length (take half sync) = half) as Hfirst by (rewrite length_take; lia).
  assert (length (take half sync ++ replicate (EMBBits - half) 0) = EMBBits)
    as Hb by (rewrite length_app, length_replicate; lia).
  rewrite (slice_in_range (replicate EMBBits 0) 0 half)
    by (rewrite ?length_replicate; lia).
  rewrite (slice_in_range sync 0 half) by lia.
  rewrite Nat.sub_0_r, drop_0. cbn [mbind result_bind].
  rewrite (copy_into_zeros EMBBits half) by done.
  rewrite Hb.
  rewrite (slice_in_range _ half EMBBits) by (rewrite ?Hb; lia).
  rewrite (slice_in_range sync (half + frag)) by lia.
  cbn [mbind result_bind].
  rewrite copy_second_half by done.
  replace (half + frag + half - (half + frag))%nat with half by lia.
  repeat f_equal. rewrite length_take, length_drop. lia.
Qed.

(** X8: the sixteen bits [ExtractEMBBitsFromSyncBits] returns.  When the half
    width is half of [EMBBits] and the sync field reaches to the end of the
    second half, the result is the first half-width bits of the field followed
    by the half-width bits behind the link-control fragment, sixteen in all,
    so that [ParseEMB] never turns it down for its length; a sync field (with
    no spare capacity) that ends before that makes the function fault. *)
Theorem ExtractEMBBits_halves (half frag : nat) (sync : list Z) (Check : list Z → bool) :
  (2 * half = EMBBits)%nat →
  ((half + frag + half ≤ length sync)%nat →
   ExtractEMBBitsFromSyncBits half frag sync
   = Ok (take half sync ++ take half (drop (half + frag) sync))
   ∧ length (take half sync ++ take half (drop (half + frag) sync)) = EMBBits
   ∧ ∀ want got,
       ParseEMB Check (take half sync ++ take half (drop (half + frag) sync))
       ≠ Err (ExpectedBits want got))
  ∧ ((length sync < half + frag + half)%nat →
     ExtractEMBBitsFromSyncBits half frag sync = Panic).
Proof.
  intros Hhalf. split.
  - intros Hlen.
    assert (length (take half sync ++ take half (drop (half + frag) sync))
            = EMBBits) as Hout.
    { rewrite length_app, !length_take, length_drop. lia. }
    split_and!; [|done|].
    + rewrite ExtractEMBBits_in_range by lia.
      replace (EMBBits - half - half)%nat with 0%nat by lia.
      replace (EMBBits - half)%nat with half by lia.
      cbn [replicate]. by rewrite app_nil_r, take_take, Nat.min_id.
    + intros want got Herr.
      pose proof (ParseEMB_right_length Check _ Hout)
        as (pi & _ & [[_ Hr]|[(_ & _ & Hr)|(_ & _ & [emb Hr])]]);
        rewrite Hr in Herr; discriminate Herr.
  - intros Hlen. unfold ExtractEMBBitsFromSyncBits. cbv zeta.
    rewrite (slice_in_range (replicate EMBBits 0) 0 half)
      by (rewrite ?length_replicate; lia).
    cbn [mbind result_bind].
    destruct (decide (half ≤ length sync)%nat) as [Hfirst|Hfirst].
    + rewrite (slice_in_range sync 0 half) by lia. cbn [mbind result_bind].
      rewrite Nat.sub_0_r, drop_0.
      rewrite (copy_into_zeros EMBBits half) by (rewrite ?length_take; lia).
      assert (length (take half sync ++ replicate (EMBBits - half) 0) = EMBBits)
        as Hb by (rewrite length_app, length_take, length_replicate; lia).
      rewrite Hb.
      rewrite (slice_in_range _ half EMBBits) by (rewrite ?Hb; lia).
      cbn [mbind result_bind].
      unfold slice. rewrite bool_decide_false by lia. done.
    + assert (slice (E:=Empty_set) sync 0 half = Panic) as ->; [|done].
      unfold slice. by rewrite bool_decide_false by lia.
Qed.

(** X9: the bits [ExtractInfoBits] returns, for a half width within
    [InfoBits].  When the payload reaches the offset of the second half, the
    result is [InfoBits] long: the first half of the payload, then what the
    payload holds from that offset on, cut to the room that is left or, when
    the payload ends early, filled up with zero bits; a payload (with no spare
    capacity) that ends before the offset makes the function fault. *)
Theorem ExtractInfoBits_halves (info half signal slot : nat) (payload : list Z) :
  (half ≤ info)%nat →
  ((half + signal + slot ≤ length payload)%nat →
   ∃ b, ExtractInfoBits info half signal slot payload = Ok b
     ∧ length b = info
     ∧ b = take half payload
           ++ take (info - half) (drop (half + signal + slot) payload)
           ++ replicate (info - half - (length payload - (half + signal + slot))) 0)
  ∧ ((length payload < half + signal + slot)%nat →
     ExtractInfoBits info half signal slot payload = Panic).
Proof.
  intros Hhalf. unfold ExtractInfoBits. cbv zeta.
  rewrite (slice_in_range (replicate info 0) 0 half)
    by (rewrite ?length_replicate; lia).
  cbn [mbind result_bind]. split.
  - intros Hlen.
    assert (length (take half payload) = half) as Hfirst
      by (rewrite length_take; lia).
    assert (length (take half payload ++ replicate (info - half) 0) = info)
      as Hb by (rewrite length_app, length_replicate; lia).
    rewrite (slice_in_range payload 0 half) by lia.
    rewrite Nat.sub_0_r, drop_0. cbn [mbind result_bind].
    rewrite (copy_into_zeros info half) by done.
    rewrite Hb.
    rewrite (slice_in_range _ half info) by (rewrite ?Hb; lia).
    rewrite (slice_in_range payload (half + signal + slot)) by lia.
    cbn [mbind result_bind].
    rewrite copy_second_half by done.
    rewrite (take_ge (drop _ payload)) by (rewrite length_drop; lia).
    rewrite length_drop.
    eexists. split_and!; [done| |done].
    rewrite !length_app, length_take, length_take, length_drop, length_replicate.
    lia.
  - intros Hlen.
    destruct (decide (half ≤ length payload)%nat) as [Hfirst|Hfirst].
    + rewrite (slice_in_range payload 0 half) by lia. cbn [mbind result_bind].
      rewrite Nat.sub_0_r, drop_0.
      rewrite (copy_into_zeros info half) by (rewrite ?length_take; lia).
      assert (length (take half payload ++ replicate (info - half) 0) = info)
        as Hb by (rewrite length_app, length_take, length_replicate; lia).
      rewrite Hb.
      rewrite (slice_in_range _ half info) by (rewrite ?Hb; lia).
      cbn [mbind result_bind].
      unfold slice. rewrite bool_decide_false by lia. done.
    + assert (slice (E:=Empty_set) payload 0 half = Panic) as ->; [|done].
      unfold slice. by rewrite bool_decide_false by lia.
Qed.
End burst_facts.

Section burst_samples.
Import Signalling Bursts.

Lemma ExtractEMBBits_halves_witness :
  ExtractEMBBitsFromSyncBits 8 32 BurstSamples.sync_bits = Ok Samples.emb_bits.
Proof.
  exact (proj1 (proj1 (ExtractEMBBits_halves 8 32 BurstSamples.sync_bits
                         Samples.accept_all eq_refl) ltac:(cbn; lia))).
Defined.

Lemma ExtractInfoBits_halves_witness :
  ∃ b, ExtractInfoBits 196 98 48 20 BurstSamples.burst_bits = Ok b
    ∧ length b = 196%nat ∧ b = replicate 196 1.
Proof.
  destruct (proj1 (ExtractInfoBits_halves 196 98 48 20 BurstSamples.burst_bits
                     ltac:(lia)) ltac:(cbn; lia))
    as (b & Hb & Hlen & Heq).
  exists b. split; [exact Hb|]. split; [exact Hlen|].
  rewrite Heq. reflexivity.
Defined.
End burst_samples.

(** * More on the frame codec *)

Section codec_facts.
Import Homebrew.

Lemma lor_range (n a b : Z) :
  0 <= a < 2 ^ n → 0 <= b < 2 ^ n → 0 <= Z.lor a b < 2 ^ n.
Proof.
  intros Ha Hb.
  assert (0 <= Z.lor a b) as Hnn by (apply Z.lor_nonneg; lia).
  split; [done|].
  destruct (decide (Z.lor a b = 0)) as [->|Hnz]; [lia|].
  destruct (decide (0 < n)) as [Hn|Hn].
  - apply Z.log2_lt_pow2; [lia|].
    rewrite Z.log2_lor by lia.
    assert (Z.log2 a < n).
    { destruct (decide (a = 0)) as [->|?]; [done|]. apply Z.log2_lt_pow2; lia. }
    assert (Z.log2 b < n).
    { destruct (decide (b = 0)) as [->|?]; [done|]. apply Z.log2_lt_pow2; lia. }
    lia.
  - assert (2 ^ n <= 1).
    { destruct (decide (n = 0)) as [->|?]; [done|]. rewrite Z.pow_neg_r; lia. }
    assert (a = 0) as -> by lia. assert (b = 0) as -> by lia. done.
Qed.

Lemma shifted_byte_range (b k n : Z) :
  is_uint8 b → 0 <= k → k + 8 <= n → n <= 32 →
  0 <= uint32 (Z.shiftl b k) < 2 ^ n.
Proof.
  intros [Hb0 Hb] Hk Hn Hn32. unfold uint32.
  rewrite Z.shiftl_mul_pow2 by lia.
  assert (0 < 2 ^ k) by (apply Z.pow_pos_nonneg; lia).
  assert (b * 2 ^ k < 2 ^ n).
  { apply Z.lt_le_trans with (2 ^ 8 * 2 ^ k); [nia|].
    rewrite <- Z.pow_add_r by lia. apply Z.pow_le_mono_r; lia. }
  assert (2 ^ n <= 2 ^ 32) by (apply Z.pow_le_mono_r; lia).
  rewrite Z.mod_small by nia. nia.
Qed.

(** Bit by bit: what one bit of a number put together from bytes is. *)
Ltac bit_by_bit :=
  unfold uint8, uint32;
  apply Z.bits_inj'; intros i Hi;
  repeat first
    [ rewrite Z.lor_spec
    | rewrite Z.testbit_mod_pow2 by lia
    | rewrite Z.shiftl_spec by lia
    | rewrite Z.shiftr_spec by lia ];
  repeat match goal with
         | |- context [ (?a <? ?b) ] => destruct (Z.ltb_spec a b)
         end;
  cbn [andb orb];
  repeat match goal with
         | H : is_uint8 ?x |- context [ Z.testbit ?x ?j ] =>
             first [ rewrite (testbit_uint x 8 H j) by lia
                   | rewrite (Z.testbit_neg_r x j) by lia ]
         end;
  cbn [andb orb]; rewrite ?orb_false_r;
  first [ reflexivity | lia | f_equal; lia ].

Lemma split24 (a b c : Z) :
  is_uint8 a → is_uint8 b → is_uint8 c →
  let v := Z.lor (Z.lor (uint32 (Z.shiftl a 16)) (uint32 (Z.shiftl b 8))) c in
  uint8 (Z.shiftr v 16) = a ∧ uint8 (Z.shiftr v 8) = b ∧ uint8 v = c
  ∧ 0 <= v < 2 ^ 24.
Proof.
  intros Ha Hb Hc v. subst v. split_and!.
  - bit_by_bit.
  - bit_by_bit.
  - bit_by_bit.
  - apply Z.lor_nonneg. split; [apply Z.lor_nonneg; split|];
      [apply shifted_byte_range with 24| apply shifted_byte_range with 24|];
      (done || lia || apply Hc).
  - apply lor_range; [apply lor_range|];
      [by apply shifted_byte_range|by apply shifted_byte_range|].
    destruct Hc. change (2 ^ 8) with 256 in *. lia.
Qed.

Lemma split32 (a b c d : Z) :
  is_uint8 a → is_uint8 b → is_uint8 c → is_uint8 d →
  let v := Z.lor (Z.lor (Z.lor d (uint32 (Z.shiftl c 8)))
                        (uint32 (Z.shiftl b 16)))
                 (uint32 (Z.shiftl a 24)) in
  uint8 (Z.shiftr v 24) = a ∧ uint8 (Z.shiftr v 16) = b
  ∧ uint8 (Z.shiftr v 8) = c ∧ uint8 v = d
  ∧ 0 <= v < 2 ^ 32.
Proof.
  intros Ha Hb Hc Hd v. subst v. split_and!.
  - bit_by_bit.
  - bit_by_bit.
  - bit_by_bit.
  - bit_by_bit.
  - repeat (apply Z.lor_nonneg; split);
      first [apply Hd | apply shifted_byte_range with 32; (done || lia)].
  - repeat apply lor_range;
      first [by apply shifted_byte_range
            | destruct Hd; change (2 ^ 8) with 256 in *; lia].
Qed.

Ltac fifty_three data :=
  do 53 (destruct data as [|? data]; [done|]); destruct data; [|done].

Ltac bytes_of H :=
  repeat match type of H with
         | Forall _ (_ :: _) => apply Forall_cons in H as [? H]
         end.

Lemma ParseFrame_bytes (data : list Z) :
  length data = 53%nat → Forall is_uint8 data →
  ∃ f, ParseFrame data = Ok f
    ∧ Signature f = take 4 data ∧ DMR f = drop 20 data
    ∧ Some (Sequence f) = data !! 4%nat ∧ Some (Flags f) = data !! 15%nat
    ∧ Forall is_uint8 [Sequence f; Flags f]
    ∧ (0 <= SrcID f < 2 ^ 24 ∧ 0 <= DstID f < 2 ^ 24)
    ∧ (0 <= RepeaterID f < 2 ^ 32 ∧ 0 <= StreamID f < 2 ^ 32)
    ∧ [uint8 (Z.shiftr (SrcID f) 16); uint8 (Z.shiftr (SrcID f) 8);
       uint8 (SrcID f);
       uint8 (Z.shiftr (DstID f) 16); uint8 (Z.shiftr (DstID f) 8);
       uint8 (DstID f);
       uint8 (Z.shiftr (RepeaterID f) 24); uint8 (Z.shiftr (RepeaterID f) 16);
       uint8 (Z.shiftr (RepeaterID f) 8); uint8 (RepeaterID f)]
      = take 10 (drop 5 data)
    ∧ [uint8 (Z.shiftr (StreamID f) 24); uint8 (Z.shiftr (StreamID f) 16);
       uint8 (Z.shiftr (StreamID f) 8); uint8 (StreamID f)]
      = take 4 (drop 16 data).
Proof.
  intros Hlen Hbytes. fifty_three data. bytes_of Hbytes.
  unfold ParseFrame.
  rewrite !slice_in_range by (cbn [length]; lia).
  cbn -[Z.shiftl Z.shiftr Z.lor uint8 uint32 Z.pow Z.le Z.lt].
  eexists. split; [reflexivity|].
  cbn -[Z.shiftl Z.shiftr Z.lor uint8 uint32 Z.pow Z.le Z.lt].
  repeat match goal with
         | |- context [ Z.lor (Z.lor (uint32 (Z.shiftl ?a 16))
                                     (uint32 (Z.shiftl ?b 8))) ?c ] =>
             let H := fresh "H24" in
             pose proof (split24 a b c ltac:(done) ltac:(done) ltac:(done)) as H;
             cbv zeta in H;
             destruct H as (? & ? & ? & ?);
             generalize dependent
               (Z.lor (Z.lor (uint32 (Z.shiftl a 16)) (uint32 (Z.shiftl b 8))) c);
             intros
         | |- context [ Z.lor (Z.lor (Z.lor ?d (uint32 (Z.shiftl ?c 8)))
                                     (uint32 (Z.shiftl ?b 16)))
                              (uint32 (Z.shiftl ?a 24)) ] =>
             let H := fresh "H32" in
             pose proof (split32 a b c d ltac:(done) ltac:(done) ltac:(done)
                           ltac:(done)) as H;
             cbv zeta in H;
             destruct H as (? & ? & ? & ? & ?);
             generalize dependent
               (Z.lor (Z.lor (Z.lor d (uint32 (Z.shiftl c 8)))
                             (uint32 (Z.shiftl b 16)))
                      (uint32 (Z.shiftl a 24)));
             intros
         end.
  split_and!; try done; try lia.
  - apply Forall_cons_2; [done|]. apply Forall_cons_2; [done|]. apply Forall_nil_2.
  - congruence.
  - congruence.
Qed.

(** X10: what [ParseFrame] makes of a buffer of 53 bytes is a well-formed
    frame: the signature is the first four bytes, the payload is all of the 33
    bytes from offset 20 on, every field is within its Go type, and the source
    and destination IDs, read from three bytes each, are below 2^24. *)
Theorem ParseFrame_well_formed (data : list Z) :
  length data = 53%nat → Forall is_uint8 data →
  ∃ f, ParseFrame data = Ok f
    ∧ Frame_wf f
    ∧ SrcID f < 2 ^ 24 ∧ DstID f < 2 ^ 24
    ∧ Signature f = take 4 data ∧ DMR f = drop 20 data.
Proof.
  intros Hlen Hbytes.
  destruct (ParseFrame_bytes data Hlen Hbytes)
    as (f & Hf & Hsig & Hdmr & _ & _ & Hsf & [Hsrc Hdst] & [Hrid Hsid] & _).
  apply Forall_cons in Hsf as [Hseq Hsf]. apply Forall_cons in Hsf as [Hfl _].
  exists f. split_and!; try done; try lia.
  split; try done; unfold is_uint32; try lia.
  - rewrite Hsig, length_take. split; [lia|by apply Forall_take].
  - rewrite Hdmr, length_drop. split; [lia|by apply Forall_drop].
Qed.

Lemma ParseFrame_well_formed_witness :
  ∃ f, ParseFrame (Bytes Samples.frame) = Ok f ∧ Frame_wf f.
Proof.
  destruct (ParseFrame_well_formed (Bytes Samples.frame))
    as (f & Hf & Hwf & _).
  - reflexivity.
  - cbn. repeat (apply Forall_cons_2; [by vm_compute|]). apply Forall_nil_2.
  - exists f. split; [exact Hf|exact Hwf].
Defined.

(** X11: a frame that was received and is sent on.  Encoding what
    [ParseFrame] made of a buffer of 53 bytes gives the first twenty bytes of
    that buffer back as they were, then a zero byte, then the first 32 of the
    33 payload bytes. *)
Theorem Bytes_of_ParseFrame (data : list Z) :
  length data = 53%nat → Forall is_uint8 data →
  ∃ f, ParseFrame data = Ok f
    ∧ Bytes f = take 20 data ++ 0 :: take 32 (drop 20 data).
Proof.
  intros Hlen Hbytes.
  destruct (ParseFrame_bytes data Hlen Hbytes)
    as (f & Hf & Hsig & Hdmr & Hseq & Hfl & _ & _ & _ & Hids & Hsid).
  exists f. split; [done|].
  rewrite Bytes_layout
    by (rewrite ?Hsig, ?Hdmr, ?length_take, ?length_drop; lia).
  rewrite Hsig, Hdmr.
  clear Hf Hbytes Hsig Hdmr. fifty_three data.
  cbn in Hseq, Hfl, Hids, Hsid.
  injection Hids as -> -> -> -> -> -> -> -> -> ->.
  injection Hsid as -> -> -> ->.
  injection Hseq as ->. injection Hfl as ->.
  reflexivity.
Qed.

Lemma Bytes_of_ParseFrame_witness :
  ∃ f, ParseFrame (Bytes Samples.frame) = Ok f
    ∧ Bytes f = take 20 (Bytes Samples.frame)
                ++ 0 :: take 32 (drop 20 (Bytes Samples.frame)).
Proof.
  apply (Bytes_of_ParseFrame (Bytes Samples.frame)).
  - reflexivity.
  - cbn. repeat (apply Forall_cons_2; [by vm_compute|]). apply Forall_nil_2.
Defined.

Lemma uint8_shiftr_low (v n k : Z) :
  0 <= k → k + 8 <= n →
  uint8 (Z.shiftr (v mod 2 ^ n) k) = uint8 (Z.shiftr v k).
Proof.
  intros Hk Hn. unfold uint8. apply Z.bits_inj'. intros i Hi.
  rewrite !Z.testbit_mod_pow2, !Z.shiftr_spec, Z.testbit_mod_pow2 by lia.
  destruct (Z.ltb_spec i 8); [|done]. cbn [andb].
  destruct (Z.ltb_spec (i + k) n); [done|lia].
Qed.

Lemma uint8_low (v n : Z) : 8 <= n → uint8 (v mod 2 ^ n) = uint8 v.
Proof.
  intros Hn. pose proof (uint8_shiftr_low v n 0 ltac:(lia) ltac:(lia)) as H.
  by rewrite !Z.shiftr_0_r in H.
Qed.

(** X12: only the low 24 bits of the source and destination IDs, and the low
    32 bits of the repeater and stream IDs, reach the wire: a frame and the
    frame with its IDs cut to those widths encode to the same bytes, so the
    top byte of a source or destination ID is lost without an error. *)
Theorem Bytes_cuts_ids (f : Frame) :
  Bytes f
  = Bytes {| Signature := Signature f; Sequence := Sequence f;
             SrcID := SrcID f mod 2 ^ 24; DstID := DstID f mod 2 ^ 24;
             RepeaterID := RepeaterID f mod 2 ^ 32; Flags := Flags f;
             StreamID := StreamID f mod 2 ^ 32; DMR := DMR f |}.
Proof.
  unfold Bytes, PutUint32. cbn [Signature Sequence SrcID DstID RepeaterID Flags
                                 StreamID DMR].
  by rewrite !uint8_shiftr_low, !uint8_low by lia.
Qed.
End codec_facts.

(** * More on the link session *)

Section dispatch_facts.
Import Homebrew.
Context `{Signatures}.

(** In [authBegin], a datagram of at least 14 bytes that does not start with
    the data-frame signature is judged as in [authNone], but that an ACK makes
    the status [authDone] and leaves the secret alone. *)
Lemma parse_packet_key (l : Link) (data : list Z) :
  master_status l = authBegin →
  (14 ≤ length data)%nat →
  take 4 data ≠ DMRData →
  parse_packet l data =
    match DecodeString (take 8 (drop 6 data)) with
    | None => Ok (set_status l authFail, Continue, [Log UnexpectedLoginReply])
    | Some repeater =>
        if Equal (take 6 data) MasterNAK then
          Ok (set_status l authFail, Continue,
              [Log (AuthenticationRefused repeater)])
        else if Equal (take 6 data) MasterACK then
          Ok (set_status l authDone, Continue,
              [Log (AuthenticationAccepted repeater)])
        else
          Ok (set_status l authFail, Continue,
              [Log (UnexpectedAuthenticationReply repeater)])
    end.
Proof.
  intros Hst Hlen Hsig. unfold parse_packet. rewrite Hst.
  assert ((length data <? 4)%nat = false) as -> by (apply Nat.ltb_ge; lia).
  assert ((length data <? 14)%nat = false) as -> by (apply Nat.ltb_ge; lia).
  rewrite !slice_prefix by lia. cbn [mbind result_bind].
  apply Equal_neq in Hsig as ->.
  rewrite (slice_in_range data 6 14) by lia. cbn [mbind result_bind].
  change (14 - 6)%nat with 8%nat.
  destruct (DecodeString _) as [repeater|]; [|done].
  destruct (Equal (take 6 data) MasterNAK); [done|].
  by destruct (Equal (take 6 data) MasterACK).
Qed.

(** X13: the reply to the key exchange.  In [authBegin], a datagram of at
    least 4 bytes that does not start with the data-frame signature never
    stops the dispatcher and never touches the secret; it makes the status
    [authDone] when it is at least 14 bytes long, starts with the ACK signature
    and has hex digits at offsets 6 to 13, and [authFail] in every other case,
    a datagram shorter than 14 bytes included. *)
Theorem parse_key_reply (l : Link) (data : list Z) :
  MasterACK ≠ MasterNAK →
  master_status l = authBegin →
  (4 ≤ length data)%nat →
  take 4 data ≠ DMRData →
  ∃ l' evs, parse_packet l data = Ok (l', Continue, evs)
    ∧ master_secret l' = master_secret l
    ∧ (((14 ≤ length data)%nat ∧ take 6 data = MasterACK
        ∧ is_Some (DecodeString (take 8 (drop 6 data)))) →
       l' = set_status l authDone)
    ∧ (¬ ((14 ≤ length data)%nat ∧ take 6 data = MasterACK
          ∧ is_Some (DecodeString (take 8 (drop 6 data)))) →
       l' = set_status l authFail).
Proof.
  intros Hsigs Hst Hlen Hdata.
  destruct (decide (14 ≤ length data)%nat) as [Hlong|Hshort].
  - rewrite parse_packet_key by done.
    destruct (DecodeString _) as [repeater|].
    + destruct (Equal (take 6 data) MasterNAK) eqn:Hnak.
      { apply Equal_eq in Hnak. eexists _, _.
        split_and!; [done|done| |done]. intros (_ & ? & _). congruence. }
      destruct (Equal (take 6 data) MasterACK) eqn:Hack.
      * apply Equal_eq in Hack. eexists _, _. split_and!; [done|done|done|].
        intros []. by split_and!.
      * apply Equal_neq in Hack. eexists _, _.
        split_and!; [done|done| |done]. by intros (_ & ? & _).
    + eexists _, _. split_and!; [done|done| |done].
      intros (_ & _ & [? ?]). done.
  - rewrite parse_packet_short_key_reply by (done || lia).
    eexists _, _. split_and!; [done|done| |done]. intros (? & _). lia.
Qed.

Lemma parse_after_login_at (l : Link) (data : list Z) :
  ∀ st, master_status l = st → st = authDone ∨ st = authFail →
  ∃ c evs, parse_packet l data = Ok (l, c, evs)
    ∧ (st = authFail → c = Continue ∧ evs = [])
    ∧ (st = authDone → (length data < 4)%nat ∨ take 4 data ≠ DMRData →
       c = Continue ∧ evs = [])
    ∧ (st = authDone → (4 ≤ length data)%nat → take 4 data = DMRData →
       stream l = false → c = Return ∧ evs = [])
    ∧ (st = authDone → take 4 data = DMRData → stream l = true →
       length data = 53%nat →
       ∃ f, ParseFrame data = Ok f ∧ c = Continue ∧ evs = [Stream f])
    ∧ (st = authDone → (4 ≤ length data)%nat → take 4 data = DMRData →
       stream l = true → length data ≠ 53%nat →
       c = Return ∧ evs = [Log (ErrorParsing InvalidPacketLength)]).
Proof.
  intros st Hst Hcases. unfold parse_packet. rewrite Hst.
  destruct (Nat.ltb_spec (length data) 4) as [Hlt|Hge].
  { eexists _, _. split; [done|].
    destruct Hcases as [-> | ->]; split_and!; try done; try lia.
    all: intros _ Hsig; try (intros _); try lia.
    all: intros; apply (f_equal length) in Hsig.
    all: try (rewrite length_take in *; lia). }
  destruct Hcases as [-> | ->]; [|by eexists _, _; split_and!].
  rewrite (slice_prefix data 4) by done. cbn [mbind result_bind].
  destruct (Equal (take 4 data) DMRData) eqn:Hsig.
  - apply Equal_eq in Hsig.
    destruct (stream l) eqn:Hstream; cbn [negb].
    + destruct (decide (length data = 53%nat)) as [Hlen|Hlen].
      * destruct (ParseFrame_right_length data Hlen) as [f Hf]. rewrite Hf.
        eexists _, _. split; [done|].
        split_and!; try done.
        -- intros _ [?|?]; [lia|done].
        -- intros _ _ _ _. by exists f.
      * rewrite (ParseFrame_wrong_length data Hlen).
        eexists _, _. split; [done|].
        split_and!; try done. intros _ [?|?]; [lia|done].
    + eexists _, _. split; [done|].
      split_and!; try done. intros _ [?|?]; [lia|done].
  - apply Equal_neq in Hsig.
    eexists _, _. split; [done|]. split_and!; done.
Qed.

(** X14: once logged in or failed, [parse] leaves the link as it is, whatever
    arrives.  In [authFail] it does nothing at all.  In [authDone] a datagram
    that starts with the data-frame signature is handed to the stream callback
    as the frame [ParseFrame] makes of it when it is 53 bytes long; when it
    has another length, or when no callback is set, [parse] returns and no
    later datagram is handled; any other datagram is passed over. *)
Theorem parse_after_login (l : Link) (data : list Z) :
  master_status l = authDone ∨ master_status l = authFail →
  ∃ c evs, parse_packet l data = Ok (l, c, evs)
    ∧ (master_status l = authFail → c = Continue ∧ evs = [])
    ∧ (master_status l = authDone →
       (length data < 4)%nat ∨ take 4 data ≠ DMRData →
       c = Continue ∧ evs = [])
    ∧ (master_status l = authDone → (4 ≤ length data)%nat →
       take 4 data = DMRData → stream l = false → c = Return ∧ evs = [])
    ∧ (master_status l = authDone → take 4 data = DMRData → stream l = true →
       length data = 53%nat →
       ∃ f, ParseFrame data = Ok f ∧ c = Continue ∧ evs = [Stream f])
    ∧ (master_status l = authDone → (4 ≤ length data)%nat →
       take 4 data = DMRData → stream l = true → length data ≠ 53%nat →
       c = Return ∧ evs = [Log (ErrorParsing InvalidPacketLength)]).
Proof. intros Hcases. by apply parse_after_login_at. Qed.
End dispatch_facts.

Section dispatch_samples.
Import Homebrew Samples.

Lemma parse_key_reply_witness :
  ∃ l' evs,
    parse_packet (H:=homebrew) (set_status fresh authBegin) key_reply
    = Ok (l', Continue, evs)
    ∧ l' = set_status (set_status fresh authBegin) authDone.
Proof.
  destruct (parse_key_reply (H:=homebrew) (set_status fresh authBegin) key_reply
              acknowledge_is_not_refusal eq_refl ltac:(cbn; lia)
              ltac:(intros Heq; vm_compute in Heq; discriminate Heq))
    as (l' & evs & Hparse & _ & Hack & _).
  exists l', evs. split; [exact Hparse|].
  apply Hack. split; [cbn; lia|]. split; [reflexivity|].
  eexists. vm_compute. reflexivity.
Defined.

Lemma parse_after_login_witness :
  ∃ c evs f,
    parse_packet (H:=homebrew) (set_status fresh authDone) (Bytes frame)
    = Ok (set_status fresh authDone, c, evs)
    ∧ ParseFrame (Bytes frame) = Ok f ∧ c = Continue ∧ evs = [Stream f].
Proof.
  destruct (parse_after_login (H:=homebrew) (set_status fresh authDone)
              (Bytes frame) (or_introl eq_refl))
    as (c & evs & Hparse & _ & _ & _ & Hframe & _).
  destruct (Hframe eq_refl eq_refl eq_refl eq_refl) as (f & Hf & Hc & Hevs).
  exists c, evs, f. repeat split; [exact Hparse|exact Hf|exact Hc|exact Hevs].
Defined.
End dispatch_samples.

Section session_more.
Import Homebrew Sessions.
Context `{Signatures}.
Variable config : list Z.
Variable sha256 : list Z → list Z.

(** What a packet can do to the link. *)
Lemma parse_packet_effect (l : Link) (data : list Z) :
  ∃ l' c evs, parse_packet l data = Ok (l', c, evs)
    ∧ (l' = l
       ∨ (master_status l = authNone ∧ l' = set_status l authFail)
       ∨ (master_status l = authNone
          ∧ l' = set_status (set_secret l (drop 14 data)) authBegin)
       ∨ (master_status l = authBegin ∧ l' = set_status l authFail)
       ∨ (master_status l = authBegin ∧ l' = set_status l authDone))
    ∧ ∀ p ok, Send p ok ∉ evs.
Proof.
  assert (∀ m p ok, Send p ok ∉ [Log m]) as Hlog.
  { intros m p ok Hin. apply list_elem_of_singleton in Hin. done. }
  assert (∀ f p ok, Send p ok ∉ [Stream f]) as Hstream.
  { intros f p ok Hin. apply list_elem_of_singleton in Hin. done. }
  assert (∀ p ok, Send p ok ∉ @nil event) as Hnil.
  { intros p ok Hin. by apply not_elem_of_nil in Hin. }
  unfold parse_packet.
  destruct (Nat.ltb_spec (length data) 4) as [Hlt|Hge];
    [by eexists _, _, _; split_and!; [|left|]|].
  rewrite (slice_prefix data 4) by done.
  destruct (master_status l) eqn:Hst; cbn [mbind result_bind].
  - destruct (Equal _ DMRData); [by eexists _, _, _; split_and!; [|left|]|].
    destruct (Nat.ltb_spec (length data) 14) as [Hlt|Hge'];
      [by eexists _, _, _; split_and!; [|left|]|].
    rewrite (slice_prefix data 6), (slice_in_range data 6 14) by lia.
    cbn [mbind result_bind].
    destruct (DecodeString _);
      [|by eexists _, _, _; split_and!; [|right; left|]].
    destruct (Equal _ MasterNAK);
      [by eexists _, _, _; split_and!; [|right; left|]|].
    destruct (Equal _ MasterACK);
      [|by eexists _, _, _; split_and!; [|right; left|]].
    rewrite slice_suffix by lia.
    by eexists _, _, _; split_and!; [|right; right; left|].
  - destruct (Equal _ DMRData); [by eexists _, _, _; split_and!; [|left|]|].
    destruct (Nat.ltb_spec (length data) 14) as [Hlt|Hge'];
      [by eexists _, _, _; split_and!; [|right; right; right; left|]|].
    rewrite (slice_prefix data 6), (slice_in_range data 6 14) by lia.
    cbn [mbind result_bind].
    destruct (DecodeString _);
      [|by eexists _, _, _; split_and!; [|right; right; right; left|]].
    destruct (Equal _ MasterNAK);
      [by eexists _, _, _; split_and!; [|right; right; right; left|]|].
    destruct (Equal _ MasterACK);
      [by eexists _, _, _; split_and!; [|right; right; right; right|]
      |by eexists _, _, _; split_and!; [|right; right; right; left|]].
  - destruct (Equal _ DMRData); [|by eexists _, _, _; split_and!; [|left|]].
    destruct (stream l); cbn [negb];
      [|by eexists _, _, _; split_and!; [|left|]].
    destruct (decide (length data = 53%nat)) as [Hlen|Hlen].
    + destruct (ParseFrame_right_length data Hlen) as [f ->].
      by eexists _, _, _; split_and!; [|left|].
    + rewrite (ParseFrame_wrong_length data Hlen).
      by eexists _, _, _; split_and!; [|left|].
  - by eexists _, _, _; split_and!; [|left|].
Qed.

Lemma later_refl (l : Link) : later l l.
Proof. by unfold later. Qed.

Lemma later_trans (l1 l2 l3 : Link) : later l1 l2 → later l2 l3 → later l1 l3.
Proof.
  unfold later.
  intros (-> & -> & -> & H1 & H2 & H3 & H4) (-> & -> & -> & H5 & H6 & H7 & H8).
  split_and!; try done; try by auto.
  intros Hne. rewrite H8, H4; [done|done|]. intros Hnone. by apply Hne, H1.
Qed.

Lemma keepAlive_step_link (ok : bool) (l : Link) (pc : keepalive_pc) :
  later l (keepAlive_step ok l pc).1.1
  ∧ ∀ p ok', Send p ok' ∈ (keepAlive_step ok l pc).2 → pc = SendPing.
Proof.
  destruct pc, ok; cbn; (split; [by unfold later|]); try done.
  all: intros p ok' Hin; by apply not_elem_of_nil in Hin.
Qed.

Lemma login_pass_failed (ok : bool) (l : Link) (previous : authStatus) :
  master_status l = authFail →
  login_pass config sha256 ok l previous = (l, Returned, []).
Proof. intros Hst. unfold login_pass. by rewrite decide_True. Qed.

Lemma login_pass_keepalive (ok : bool) (l : Link) (previous : authStatus) pc :
  (login_pass config sha256 ok l previous).1.2 = InKeepAlive pc →
  master_status l = authDone.
Proof.
  unfold login_pass.
  destruct (decide _); [done|]. destruct (decide _); [|done].
  destruct (master_status l); try done.
Qed.

(** A step of the session: it never faults, the link it leaves is a later one,
    [keepAlive] still runs only when the status is [authDone], and with the
    status [authFail] nothing is handed to [Send]. *)
Lemma session_step_later (s : session) (a : action) :
  Sessions.keepalive_when_done s →
  ∃ s' evs, session_step config sha256 s a = Ok (s', evs)
    ∧ later (link s) (link s')
    ∧ Sessions.keepalive_when_done s'
    ∧ (master_status (link s) = authFail → ∀ p ok, Send p ok ∉ evs).
Proof.
  intros Hinv. destruct a as [data|ok]; cbn [session_step].
  - destruct (dispatcher s).
    + destruct (parse_packet_effect (link s) data)
        as (l' & c & evs & -> & Hcases & Hsend).
      cbn. eexists _, _. split; [done|].
      assert (later (link s) l') as Hlater.
      { destruct Hcases as [->|[[Hst ->]|[[Hst ->]|[[Hst ->]|[Hst ->]]]]];
          unfold later; cbn; rewrite ?Hst; split_and!; try done. }
      split_and!; [done| |done].
      intros pc Hpc. cbn in Hpc. destruct Hlater as (_ & _ & _ & _ & Hdone & _).
      apply Hdone. by apply (Hinv pc).
    + eexists _, _. split; [done|]. split_and!; [apply later_refl|done|].
      intros _ p ok Hin. by apply not_elem_of_nil in Hin.
  - destruct (login_at s) as [previous|pc|] eqn:Hpc.
    + pose proof (login_pass_link config sha256 ok (link s) previous) as Hl.
      pose proof (login_pass_keepalive ok (link s) previous) as Hka.
      pose proof (login_pass_failed ok (link s) previous) as Hfail.
      destruct (login_pass _ _ _ _ _) as [[l' pc'] evs]. cbn in Hl, Hka. subst l'.
      eexists _, _. split; [done|]. cbn.
      split_and!; [apply later_refl|intros pc''; apply Hka|].
      intros Hst p ok' Hin. specialize (Hfail Hst). simplify_eq.
      by apply not_elem_of_nil in Hin.
    + pose proof (keepAlive_step_link ok (link s) pc) as [Hlater Hsend].
      pose proof (Hinv pc Hpc) as Hdone.
      destruct (keepAlive_step _ _ _) as [[l' next] evs]. cbn in Hlater, Hsend.
      eexists _, _. split; [done|]. cbn.
      split_and!; [done| |].
      * intros pc' _. destruct Hlater as (_ & _ & _ & _ & Hd & _). by apply Hd.
      * intros Hst. congruence.
    + eexists _, _. split; [done|]. split_and!; [apply later_refl| |].
      * intros pc Hpc'. congruence.
      * intros _ p ok' Hin. by apply not_elem_of_nil in Hin.
Qed.

Lemma run_later (s : session) (acts : list action) :
  Sessions.keepalive_when_done s →
  ∃ s' evs, run config sha256 s acts = Ok (s', evs)
    ∧ later (link s) (link s')
    ∧ Sessions.keepalive_when_done s'
    ∧ (master_status (link s) = authFail → ∀ p ok, Send p ok ∉ evs).
Proof.
  revert s. induction acts as [|a acts IH]; intros s Hinv; cbn [run].
  - eexists _, _. split; [done|]. split_and!; [apply later_refl|done|].
    intros _ p ok Hin. by apply not_elem_of_nil in Hin.
  - destruct (session_step_later s a Hinv)
      as (s1 & evs1 & -> & Hl1 & Hinv1 & Hsend1).
    cbn [mbind result_bind].
    destruct (IH s1 Hinv1) as (s' & evs' & -> & Hl2 & Hinv' & Hsend2).
    cbn. eexists _, _. split; [done|].
    split_and!; [by eapply later_trans|done|].
    intros Hst p ok Hin. apply elem_of_app in Hin as [Hin|Hin].
    + by apply (Hsend1 Hst p ok).
    + destruct Hl1 as (_ & _ & _ & _ & _ & Hfail & _).
      by apply (Hsend2 (Hfail Hst) p ok).
Qed.

Lemma Run_keepalive_when_done (l : Link) : keepalive_when_done (Run l).
Proof. intros pc Hpc. done. Qed.

(** X15: the status only moves forward.  From any state a session has reached
    and over whatever follows, the session never faults; [authDone] and
    [authFail] are final; the status is [authNone] only if it was so before;
    the secret changes only as the status leaves [authNone]; and the key, the
    local ID and the stream callback stay as [New] set them. *)
Theorem status_only_advances (l : Link) (acts1 acts2 : list action) :
  ∃ s evs1 s' evs2,
    run config sha256 (Run l) acts1 = Ok (s, evs1)
    ∧ run config sha256 s acts2 = Ok (s', evs2)
    ∧ (master_status (link s) = authDone → master_status (link s') = authDone)
    ∧ (master_status (link s) = authFail → master_status (link s') = authFail)
    ∧ (master_status (link s') = authNone → master_status (link s) = authNone)
    ∧ (master_status (link s) ≠ authNone →
       master_secret (link s') = master_secret (link s))
    ∧ authKey (link s') = authKey l ∧ local_id (link s') = local_id l
    ∧ stream (link s') = stream l.
Proof.
  destruct (run_later (Run l) acts1 (Run_keepalive_when_done l))
    as (s & evs1 & Hrun1 & Hl1 & Hinv & _).
  destruct (run_later s acts2 Hinv) as (s' & evs2 & Hrun2 & Hl2 & _ & _).
  exists s, evs1, s', evs2.
  pose proof (later_trans _ _ _ Hl1 Hl2) as (? & ? & ? & _).
  destruct Hl2 as (_ & _ & _ & ? & ? & ? & ?).
  by split_and!.
Qed.

Lemma reply_parts (sig id tail : list Z) :
  length sig = 6%nat → length id = 8%nat →
  take 4 (sig ++ id ++ tail) = take 4 sig
  ∧ take 6 (sig ++ id ++ tail) = sig
  ∧ take 8 (drop 6 (sig ++ id ++ tail)) = id
  ∧ drop 14 (sig ++ id ++ tail) = tail
  ∧ (14 ≤ length (sig ++ id ++ tail))%nat.
Proof.
  intros Hsig Hid. split_and!.
  - by rewrite take_app_le by lia.
  - by rewrite take_app_length'.
  - rewrite drop_app_length' by done. by rewrite take_app_length'.
  - rewrite app_assoc. rewrite drop_app_length'; [done|].
    rewrite length_app. lia.
  - rewrite !length_app. lia.
Qed.

Lemma Equal_refl (a : list Z) : Equal a a = true.
Proof. by apply Equal_eq. Qed.

Lemma run_cons_ok (s s1 s2 : session) (a : action) (acts : list action)
    (evs evs1 evs2 : list event) :
  session_step config sha256 s a = Ok (s1, evs1) →
  run config sha256 s1 acts = Ok (s2, evs2) →
  evs = evs1 ++ evs2 →
  run config sha256 s (a :: acts) = Ok (s2, evs).
Proof. intros Hstep Hrun ->. cbn [run]. by rewrite Hstep; cbn; rewrite Hrun. Qed.

Lemma login_step_request (l : Link) (d : control) (previous : authStatus)
    (ok : bool) :
  master_status l = authNone → previous ≠ authNone →
  session_step config sha256
    {| link := l; dispatcher := d; login_at := InLogin previous |} (Login ok)
  = Ok ({| link := l; dispatcher := d; login_at := InLogin authNone |},
        [Log LoggingIn; Send (RepeaterLogin ++ local_id l) ok]).
Proof.
  intros Hst Hprev. cbn [session_step login_at link dispatcher].
  unfold login_pass. rewrite Hst.
  rewrite decide_False by done. by rewrite decide_True by done.
Qed.

Lemma login_step_key (l : Link) (d : control) (previous : authStatus)
    (ok : bool) :
  master_status l = authBegin → previous ≠ authBegin →
  session_step config sha256
    {| link := l; dispatcher := d; login_at := InLogin previous |} (Login ok)
  = Ok ({| link := l; dispatcher := d; login_at := InLogin authBegin |},
        [Log Authenticating;
         Send ((RepeaterKey ++ local_id l)
               ++ EncodeToString (sha256 (master_secret l ++ authKey l))) ok]).
Proof.
  intros Hst Hprev. cbn [session_step login_at link dispatcher].
  unfold login_pass. rewrite Hst.
  rewrite decide_False by done. by rewrite decide_True by done.
Qed.

Lemma login_step_config (l : Link) (d : control) (previous : authStatus) :
  master_status l = authDone → previous ≠ authDone →
  session_step config sha256
    {| link := l; dispatcher := d; login_at := InLogin previous |} (Login true)
  = Ok ({| link := l; dispatcher := d; login_at := InKeepAlive AddOutstanding |},
        [Log (LoggedIn (length config)); Send config true]).
Proof.
  intros Hst Hprev. cbn [session_step login_at link dispatcher].
  unfold login_pass. rewrite Hst.
  rewrite decide_False by done. by rewrite decide_True by done.
Qed.

Lemma login_step_wait (l : Link) (d : control) (ok : bool) :
  master_status l ≠ authFail →
  session_step config sha256
    {| link := l; dispatcher := d; login_at := InLogin (master_status l) |}
    (Login ok)
  = Ok ({| link := l; dispatcher := d; login_at := InLogin (master_status l) |},
        [Log Waiting; Sleep 1]).
Proof.
  intros Hst. cbn [session_step login_at link dispatcher].
  unfold login_pass. rewrite decide_False by done.
  by rewrite decide_False by (by intros ?).
Qed.

(** X16: the handshake.  A link in [authNone] whose login request is answered
    by an ACK with eight hex digits and a salt, and whose key packet is
    answered by an ACK with eight hex digits, ends in [authDone] with the salt
    as its secret and [keepAlive] about to start.  It has sent, in this order
    and once each: the login signature with the local ID; the key signature
    with the local ID and the hex digits of the SHA-256 sum of the salt
    followed by the key; and the configuration record.  The digits the master
    echoes are not compared with the local ID, and a failed write of one of
    the two requests changes nothing. *)
Theorem handshake (l : Link) (id1 id2 salt rest r1 r2 : list Z) (ok1 ok2 : bool) :
  length MasterACK = 6%nat → take 4 MasterACK ≠ DMRData →
  MasterACK ≠ MasterNAK →
  master_status l = authNone →
  length id1 = 8%nat → length id2 = 8%nat →
  DecodeString id1 = Some r1 → DecodeString id2 = Some r2 →
  run config sha256 (Run l)
    [Login ok1; Receive (MasterACK ++ id1 ++ salt);
     Login ok2; Receive (MasterACK ++ id2 ++ rest); Login true]
  = Ok ({| link := set_status (set_status (set_secret l salt) authBegin) authDone;
           dispatcher := Continue;
           login_at := InKeepAlive AddOutstanding |},
        [Log LoggingIn; Send (RepeaterLogin ++ local_id l) ok1;
         Log (LoginAccepted r1);
         Log Authenticating;
         Send ((RepeaterKey ++ local_id l)
               ++ EncodeToString (sha256 (salt ++ authKey l))) ok2;
         Log (AuthenticationAccepted r2);
         Log (LoggedIn (length config)); Send config true]).
Proof.
  intros Hack6 Hack4 Hne Hst Hid1 Hid2 Hr1 Hr2.
  destruct (reply_parts MasterACK id1 salt Hack6 Hid1)
    as (H14 & H16 & H18 & H114 & H1len).
  destruct (reply_parts MasterACK id2 rest Hack6 Hid2)
    as (H24 & H26 & H28 & H214 & H2len).
  assert (Equal MasterACK MasterNAK = false) as Hnak by (by apply Equal_neq).
  eapply run_cons_ok; [by apply login_step_request| |].
  1: eapply run_cons_ok; [| |].
  1: { cbn [session_step login_at link dispatcher].
       rewrite parse_packet_login by (rewrite ?H14; done).
       rewrite H16, H18, H114, Hr1, Hnak, Equal_refl. reflexivity. }
  1: eapply run_cons_ok; [by apply login_step_key| |].
  1: eapply run_cons_ok; [| |].
  1: { cbn [session_step login_at link dispatcher].
       rewrite parse_packet_key by (rewrite ?H24; done).
       rewrite H26, H28, Hr2, Hnak, Equal_refl. reflexivity. }
  1: eapply run_cons_ok; [by apply login_step_config|reflexivity|].
  all: reflexivity.
Qed.

(** X17: [login] sends its request once and never again.  With the status
    [authNone] and nothing received, the first pass hands the login signature
    with the local ID to [Send]; every later pass only logs that it is waiting
    and sleeps a second, whether or not that one write went well. *)
Theorem login_request_is_sent_once (l : Link) (ok : bool) (oks : list bool) :
  master_status l = authNone →
  run config sha256 (Run l) (Login ok :: (Login <$> oks))
  = Ok ({| link := l; dispatcher := Continue; login_at := InLogin authNone |},
        [Log LoggingIn; Send (RepeaterLogin ++ local_id l) ok]
        ++ (oks ≫= λ _, [Log Waiting; Sleep 1])).
Proof.
  intros Hst.
  eapply run_cons_ok; [by apply login_step_request| |reflexivity].
  induction oks as [|ok' oks IH]; [done|].
  eapply run_cons_ok; [|exact IH|reflexivity].
  rewrite <- Hst. apply login_step_wait. by rewrite Hst.
Qed.
End session_more.

Section session_samples.
Import Homebrew Samples.

Lemma handshake_witness :
  ∃ s evs,
    run (H:=homebrew) no_config digest (Run fresh)
      [Login true; Receive ack_reply; Login true; Receive key_reply; Login true]
    = Ok (s, evs)
    ∧ master_status (link s) = authDone
    ∧ master_secret (link s) = bytes "deadbeef"
    ∧ login_at s = InKeepAlive AddOutstanding.
Proof.
  eexists _, _. split.
  - exact (handshake (H:=homebrew) no_config digest fresh
             (bytes "001f2891") (bytes "001f2891") (bytes "deadbeef") []
             [0; 0x1f; 0x28; 0x91] [0; 0x1f; 0x28; 0x91] true true
             eq_refl
             ltac:(intros Heq; vm_compute in Heq; discriminate Heq)
             acknowledge_is_not_refusal eq_refl eq_refl eq_refl eq_refl eq_refl).
  - split_and!; reflexivity.
Defined.

Lemma login_request_is_sent_once_witness :
  run (H:=homebrew) no_config digest (Run fresh)
    [Login true; Login true; Login false]
  = Ok ({| link := fresh; dispatcher := Continue; login_at := InLogin authNone |},
        [Log LoggingIn; Send (bytes "RPTL001f2891") true;
         Log Waiting; Sleep 1; Log Waiting; Sleep 1]).
Proof.
  exact (login_request_is_sent_once (H:=homebrew) no_config digest fresh true
           [true; false] eq_refl).
Defined.
End session_samples.

(** * The local ID *)

Section local_id_facts.
Import Homebrew.








End local_id_facts.

(** * Properties of the configuration record *)

Section configuration_facts.
Import Homebrew Configuration.
Variable float32 : Type.
Variable Sprintf_f : float32 → list Z.
Variable GOOS GOARCH : list Z.


Lemma length_pad_right (w : nat) (s : list Z) :
  length (pad_right w s) = Nat.max w (length s).
Proof. unfold pad_right. rewrite length_app, length_replicate. lia. Qed.

Lemma length_pad_zero (w : nat) (n : Z) :
  length (pad_zero w n) = Nat.max w (length (digits 20 n)).
Proof. unfold pad_zero. rewrite length_app, length_replicate. lia. Qed.

Lemma length_digits_le (fuel k : nat) (n : Z) :
  (1 ≤ k)%nat → 0 <= n < 10 ^ Z.of_nat k → (length (digits fuel n) ≤ k)%nat.
Proof.
  revert k n. induction fuel as [|fuel IH]; intros k n Hk Hn; cbn [digits].
  { cbn. lia. }
  destruct (Z.ltb_spec n 10) as [Hsmall|Hbig]; [cbn; lia|].
  destruct k as [|[|k]]; [lia|cbn in Hn; lia|].
  rewrite length_app. cbn [length].
  assert (length (digits fuel (n / 10)) ≤ S k)%nat; [|lia].
  apply IH; [lia|].
  replace (Z.of_nat (S (S k))) with (Z.of_nat (S k) + 1) in Hn by lia.
  rewrite Z.pow_add_r in Hn by lia. change (10 ^ 1) with 10 in Hn.
  split; [apply Z.div_pos; lia|].
  apply Z.div_lt_upper_bound; lia.
Qed.

Lemma length_digits_ge (fuel k : nat) (n : Z) :
  (1 ≤ k ≤ fuel)%nat → 10 ^ (Z.of_nat k - 1) <= n →
  (k ≤ length (digits fuel n))%nat.
Proof.
  revert k n. induction fuel as [|fuel IH]; intros k n Hk Hn; [lia|].
  cbn [digits].
  destruct (Z.ltb_spec n 10) as [Hsmall|Hbig].
  - destruct k as [|[|k]]; [lia|cbn; lia|].
    replace (Z.of_nat (S (S k)) - 1) with (Z.of_nat k + 1) in Hn by lia.
    rewrite Z.pow_add_r in Hn by lia. change (10 ^ 1) with 10 in Hn.
    assert (1 <= 10 ^ Z.of_nat k) by (apply Z.pow_le_mono_r with (b:=0); lia).
    nia.
  - rewrite length_app. cbn [length].
    destruct k as [|[|k]]; [lia|lia|].
    assert (S k ≤ length (digits fuel (n / 10)))%nat; [|lia].
    apply IH; [lia|].
    replace (Z.of_nat (S (S k)) - 1) with (Z.of_nat (S k) - 1 + 1) in Hn by lia.
    rewrite Z.pow_add_r in Hn by lia. change (10 ^ 1) with 10 in Hn.
    apply Z.div_le_lower_bound; lia.
Qed.

Lemma length_digits_pos (n : Z) : (1 ≤ length (digits 20 n))%nat.
Proof.
  cbn [digits]. destruct (Z.ltb_spec n 10); [cbn; lia|].
  rewrite length_app. cbn. lia.
Qed.

Lemma length_cut (w : nat) (s : list Z) :
  length (if (w <? length (pad_right w s))%nat
          then take w (pad_right w s) else pad_right w s) = w.
Proof.
  pose proof (length_pad_right w s) as Hlen.
  destruct (Nat.ltb_spec w (length (pad_right w s))).
  - rewrite length_take. lia.
  - lia.
Qed.

Lemma cut_take (w : nat) (s : list Z) :
  (if (w <? length s)%nat then take w s else s) = take w s.
Proof.
  destruct (Nat.ltb_spec w (length s)); [done|]. by rewrite take_ge by lia.
Qed.

(** The record and the text [String] gives, field by field. *)
Lemma String_text (r : RepeaterConfiguration float32) :
  let cc := Z.min 15 (Z.max 1 (ColorCode r)) in
  let tp := Z.min 99 (TXPower r) in
  String Sprintf_f GOOS GOARCH r
  = (set_TXPower (set_ColorCode r cc) tp,
     Samples.bytes "RPTC"
     ++ pad_right 8 (Callsign r)
     ++ hex8 (RepeaterID r)
     ++ pad_zero 9 (RXFreq r)
     ++ pad_zero 9 (TXFreq r)
     ++ pad_zero 2 tp
     ++ pad_zero 2 cc
     ++ take 8 (pad_right 8 (Sprintf_f (Latitude r)))
     ++ take 9 (pad_right 9 (Sprintf_f (Longitude r)))
     ++ pad_zero 3 (Height r)
     ++ pad_right 20 (Location r)
     ++ pad_right 20 (Description r)
     ++ pad_right 124 (URL r)
     ++ pad_right 40 (SoftwareID GOOS)
     ++ pad_right 40 (PackageID GOOS GOARCH)).
Proof.
  intros cc tp. subst cc tp. destruct r as [cs id rx tx tp cc la lo h loc d u].
  unfold Configuration.String. cbn [ColorCode].
  destruct (Z.ltb_spec cc 1) as [Hlow|Hlow];
    cbn [ColorCode TXPower set_ColorCode set_TXPower Callsign RepeaterID RXFreq
         TXFreq Latitude Longitude Height Location Description URL].
  all: match goal with |- context [15 <? ?c] => destruct (Z.ltb_spec 15 c) end;
    cbn [ColorCode TXPower set_ColorCode set_TXPower Callsign RepeaterID RXFreq
         TXFreq Latitude Longitude Height Location Description URL].
  all: destruct (Z.ltb_spec 99 tp) as [Hhigh|Hhigh];
    cbn [ColorCode TXPower set_ColorCode set_TXPower Callsign RepeaterID RXFreq
         TXFreq Latitude Longitude Height Location Description URL].
  all: rewrite !cut_take, <- !app_assoc.
  all: try (exfalso; lia).
  all: unfold set_TXPower, set_ColorCode;
    cbn [ColorCode TXPower Callsign RepeaterID RXFreq TXFreq Latitude
         Longitude Height Location Description URL].
  all: repeat match goal with
         | |- context [Z.max ?a ?b] =>
             first [rewrite (Z.max_l a b) by lia|rewrite (Z.max_r a b) by lia]
         | |- context [Z.min ?a ?b] =>
             first [rewrite (Z.min_l a b) by lia|rewrite (Z.min_r a b) by lia]
         end.
  all: reflexivity.
Qed.

Lemma digits_fit (k : nat) (n : Z) :
  (1 ≤ k ≤ 19)%nat → 0 <= n →
  (n < 10 ^ Z.of_nat k → (length (digits 20 n) ≤ k)%nat)
  ∧ (10 ^ Z.of_nat k <= n → (k < length (digits 20 n))%nat).
Proof.
  intros Hk Hn. split; intros Hcmp.
  - apply length_digits_le; lia.
  - assert (S k ≤ length (digits 20 n))%nat; [|lia].
    apply length_digits_ge; [lia|].
    by replace (Z.of_nat (S k) - 1) with (Z.of_nat k) by lia.
Qed.

(** X19: [String] changes the record it is called on.  The colour code is
    brought into 1..15 and the power down to 99 at most, in the record itself
    and not only in the text; nothing else of the record changes, a record
    within those ranges is left as it is, and a second call gives the same
    text and changes nothing more. *)
Theorem String_cuts_in_place (r : RepeaterConfiguration float32) :
  ∃ cc tp text,
    String Sprintf_f GOOS GOARCH r = (set_TXPower (set_ColorCode r cc) tp, text)
    ∧ 1 <= cc <= 15 ∧ tp <= 99
    ∧ (ColorCode r < 1 → cc = 1)
    ∧ (1 <= ColorCode r <= 15 → cc = ColorCode r)
    ∧ (15 < ColorCode r → cc = 15)
    ∧ (TXPower r <= 99 → tp = TXPower r)
    ∧ (99 < TXPower r → tp = 99)
    ∧ (1 <= ColorCode r <= 15 → TXPower r <= 99 →
       set_TXPower (set_ColorCode r cc) tp = r)
    ∧ String Sprintf_f GOOS GOARCH (set_TXPower (set_ColorCode r cc) tp)
      = (set_TXPower (set_ColorCode r cc) tp, text).
Proof.
  pose proof (String_text r) as Hfirst. cbv zeta in Hfirst.
  eexists _, _, _. split; [exact Hfirst|].
  split_and!; try lia.
  - intros Hcc Htp. destruct r. unfold set_TXPower, set_ColorCode.
    cbn [ColorCode TXPower Callsign RepeaterID RXFreq TXFreq Latitude
         Longitude Height Location Description URL] in *.
    f_equal; lia.
  - pose proof (String_text (set_TXPower
        (set_ColorCode r (Z.min 15 (Z.max 1 (ColorCode r))))
        (Z.min 99 (TXPower r)))) as Hsecond.
    cbv zeta in Hsecond. rewrite Hsecond. clear Hfirst Hsecond.
    destruct r as [cs id rx tx tp cc la lo h loc d u].
    unfold set_TXPower, set_ColorCode.
    cbn [ColorCode TXPower Callsign RepeaterID RXFreq TXFreq Latitude
         Longitude Height Location Description URL].
    replace (Z.min 15 (Z.max 1 (Z.min 15 (Z.max 1 cc))))
      with (Z.min 15 (Z.max 1 cc)) by lia.
    replace (Z.min 99 (Z.min 99 tp)) with (Z.min 99 tp) by lia.
    reflexivity.
Qed.

Lemma pad_right_excess (w : nat) (s : list Z) :
  ∃ e, length (pad_right w s) = (w + e)%nat
    ∧ (e = 0%nat ↔ (length s ≤ w)%nat).
Proof.
  exists (length s - w)%nat. rewrite length_pad_right. lia.
Qed.

Lemma pad_zero_excess (k : nat) (n : Z) :
  (1 ≤ k ≤ 19)%nat → 0 <= n →
  ∃ e, length (pad_zero k n) = (k + e)%nat
    ∧ (e = 0%nat ↔ n < 10 ^ Z.of_nat k).
Proof.
  intros Hk Hn. exists (length (digits 20 n) - k)%nat.
  rewrite length_pad_zero.
  destruct (digits_fit k n Hk Hn) as [Hfit Hwide].
  destruct (Z.lt_ge_cases n (10 ^ Z.of_nat k)) as [Hlt|Hge].
  - specialize (Hfit Hlt). lia.
  - specialize (Hwide Hge). lia.
Qed.

Lemma length_cut_take (w : nat) (s : list Z) :
  length (take w (pad_right w s)) = w.
Proof. rewrite length_take, length_pad_right. lia. Qed.

(** X20: the length of the configuration record.  The text is 306 bytes long
    at least, and exactly 306 only when every field fits its column: the
    widths pad and never cut (only the two coordinates are cut), so a call
    sign of more than 8 characters, a frequency of 1 GHz or more (ten digits
    in a column of nine), a height of 1000 or more, or an over-long location,
    description, URL or software name makes the record longer and moves every
    field behind it. *)
Theorem String_length (r : RepeaterConfiguration float32) :
  ascii (Callsign r) → ascii (Location r) → ascii (Description r) →
  ascii (URL r) → ascii GOOS → ascii GOARCH →
  0 <= RXFreq r → 0 <= TXFreq r → 0 <= TXPower r → 0 <= Height r →
  (306 ≤ length (String Sprintf_f GOOS GOARCH r).2)%nat
  ∧ (length (String Sprintf_f GOOS GOARCH r).2 = 306%nat
     ↔ (length (Callsign r) ≤ 8)%nat
       ∧ RXFreq r < 10 ^ 9 ∧ TXFreq r < 10 ^ 9 ∧ Height r < 10 ^ 3
       ∧ (length (Location r) ≤ 20)%nat
       ∧ (length (Description r) ≤ 20)%nat
       ∧ (length (URL r) ≤ 124)%nat
       ∧ (length (SoftwareID GOOS) ≤ 40)%nat
       ∧ (length (PackageID GOOS GOARCH) ≤ 40)%nat).
Proof.
  intros _ _ _ _ _ _ Hrx Htx Htp Hh.
  pose proof (String_text r) as Htext. cbv zeta in Htext. rewrite Htext.
  cbn [snd]. clear Htext.
  rewrite !length_app, !length_cut_take.
  change (length (Samples.bytes "RPTC")) with 4%nat.
  change (length (hex8 (RepeaterID r))) with 8%nat.
  destruct (pad_zero_excess 2 (Z.min 99 (TXPower r)) ltac:(lia) ltac:(lia))
    as (e4 & -> & He4).
  assert (e4 = 0%nat) as ->
    by (apply He4; clear; change (10 ^ Z.of_nat 2) with 100; lia).
  destruct (pad_zero_excess 2 (Z.min 15 (Z.max 1 (ColorCode r)))
              ltac:(lia) ltac:(lia)) as (e5 & -> & He5).
  assert (e5 = 0%nat) as ->
    by (apply He5; clear; change (10 ^ Z.of_nat 2) with 100; lia).
  clear He4 He5.
  destruct (pad_zero_excess 9 (RXFreq r) ltac:(lia) Hrx) as (e2 & -> & He2).
  destruct (pad_zero_excess 9 (TXFreq r) ltac:(lia) Htx) as (e3 & -> & He3).
  destruct (pad_zero_excess 3 (Height r) ltac:(lia) Hh) as (e6 & -> & He6).
  destruct (pad_right_excess 8 (Callsign r)) as (e1 & -> & He1).
  destruct (pad_right_excess 20 (Location r)) as (e7 & -> & He7).
  destruct (pad_right_excess 20 (Description r)) as (e8 & -> & He8).
  destruct (pad_right_excess 124 (URL r)) as (e9 & -> & He9).
  destruct (pad_right_excess 40 (SoftwareID GOOS)) as (e10 & -> & He10).
  destruct (pad_right_excess 40 (PackageID GOOS GOARCH)) as (e11 & -> & He11).
  change (Z.of_nat 9) with 9 in He2, He3. change (Z.of_nat 3) with 3 in He6.
  rewrite <- He1, <- He2, <- He3, <- He6, <- He7, <- He8, <- He9, <- He10,
    <- He11.
  clear. lia.
Qed.

Lemma pad_zero_two (n : Z) :
  0 <= n < 100 → pad_zero 2 n = [48 + n / 10; 48 + n mod 10].
Proof.
  intros Hn. unfold pad_zero.
  change (digits 20 n)
    with (if n <? 10 then [48 + n]
          else (if n / 10 <? 10 then [48 + n / 10]
                else digits 18 (n / 10 / 10) ++ [48 + n / 10 mod 10])
               ++ [48 + n mod 10]).
  destruct (Z.ltb_spec n 10) as [Hsmall|Hbig].
  - rewrite Z.div_small, Z.mod_small by lia. reflexivity.
  - destruct (Z.ltb_spec (n / 10) 10) as [_|Hwide]; [reflexivity|].
    exfalso. assert (n / 10 < 10); [|lia].
    apply Z.div_lt_upper_bound; lia.
Qed.

Lemma length_pad_fit (w : nat) (s : list Z) :
  (length s ≤ w)%nat → length (pad_right w s) = w.
Proof. intros Hs. rewrite length_pad_right. lia. Qed.

Lemma length_pad_zero_fit (k : nat) (n : Z) :
  (1 ≤ k ≤ 19)%nat → 0 <= n < 10 ^ Z.of_nat k → length (pad_zero k n) = k.
Proof.
  intros Hk [Hn Hfit].
  destruct (pad_zero_excess k n Hk Hn) as (e & -> & He).
  apply He in Hfit. lia.
Qed.

Lemma columns (a b c d e f g rest : list Z) :
  length a = 4%nat → length b = 8%nat → length c = 8%nat →
  length d = 9%nat → length e = 9%nat → length f = 2%nat → length g = 2%nat →
  take 4 (a ++ b ++ c ++ d ++ e ++ f ++ g ++ rest) = a
  ∧ take 8 (drop 4 (a ++ b ++ c ++ d ++ e ++ f ++ g ++ rest)) = b
  ∧ take 8 (drop 12 (a ++ b ++ c ++ d ++ e ++ f ++ g ++ rest)) = c
  ∧ take 9 (drop 20 (a ++ b ++ c ++ d ++ e ++ f ++ g ++ rest)) = d
  ∧ take 9 (drop 29 (a ++ b ++ c ++ d ++ e ++ f ++ g ++ rest)) = e
  ∧ take 2 (drop 38 (a ++ b ++ c ++ d ++ e ++ f ++ g ++ rest)) = f
  ∧ take 2 (drop 40 (a ++ b ++ c ++ d ++ e ++ f ++ g ++ rest)) = g.
Proof.
  intros Ha Hb Hc Hd He Hf Hg.
  set (text := a ++ b ++ c ++ d ++ e ++ f ++ g ++ rest).
  assert (drop 4 text = b ++ c ++ d ++ e ++ f ++ g ++ rest) as H4
    by (by apply drop_app_length').
  assert (drop 12 text = c ++ d ++ e ++ f ++ g ++ rest) as H12.
  { change 12%nat with (4 + 8)%nat. rewrite <- drop_drop, H4.
    by apply drop_app_length'. }
  assert (drop 20 text = d ++ e ++ f ++ g ++ rest) as H20.
  { change 20%nat with (12 + 8)%nat. rewrite <- drop_drop, H12.
    by apply drop_app_length'. }
  assert (drop 29 text = e ++ f ++ g ++ rest) as H29.
  { change 29%nat with (20 + 9)%nat. rewrite <- drop_drop, H20.
    by apply drop_app_length'. }
  assert (drop 38 text = f ++ g ++ rest) as H38.
  { change 38%nat with (29 + 9)%nat. rewrite <- drop_drop, H29.
    by apply drop_app_length'. }
  assert (drop 40 text = g ++ rest) as H40.
  { change 40%nat with (38 + 2)%nat. rewrite <- drop_drop, H38.
    by apply drop_app_length'. }
  rewrite H4, H12, H20, H29, H38, H40.
  split_and!; by apply take_app_length'.
Qed.

(** X21: the columns of the record.  When the call sign has 8 characters at
    most and the two frequencies are below 1 GHz, the record starts with the
    signature, the call sign filled up with spaces, the repeater ID as the
    eight hex digits [New] makes the local ID of a link from, the frequencies
    in nine characters each, and power and colour code in two digits each,
    the values being those cut to range. *)
Theorem String_columns (r : RepeaterConfiguration float32) :
  ascii (Callsign r) → (length (Callsign r) ≤ 8)%nat →
  0 <= RXFreq r < 10 ^ 9 → 0 <= TXFreq r < 10 ^ 9 → 0 <= TXPower r →
  ∃ text cc tp,
    (String Sprintf_f GOOS GOARCH r).2 = text
    ∧ cc = Z.min 15 (Z.max 1 (ColorCode r)) ∧ tp = Z.min 99 (TXPower r)
    ∧ take 4 text = Samples.bytes "RPTC"
    ∧ take 8 (drop 4 text)
      = Callsign r ++ replicate (8 - length (Callsign r)) 32
    ∧ take 8 (drop 12 text) = hex8 (RepeaterID r)
    ∧ (∀ key sf l, New key (RepeaterID r) sf = Some l →
       take 8 (drop 12 text) = local_id l)
    ∧ take 9 (drop 20 text) = pad_zero 9 (RXFreq r)
    ∧ take 9 (drop 29 text) = pad_zero 9 (TXFreq r)
    ∧ take 2 (drop 38 text) = [48 + tp / 10; 48 + tp mod 10]
    ∧ take 2 (drop 40 text) = [48 + cc / 10; 48 + cc mod 10].
Proof.
  intros _ Hcs Hrx Htx Htp.
  pose proof (String_text r) as Htext. cbv zeta in Htext.
  eexists _, _, _. split; [rewrite Htext; cbn [snd]; reflexivity|].
  clear Htext.
  split; [reflexivity|]. split; [reflexivity|].
  assert (length (Samples.bytes "RPTC") = 4%nat) as H0 by done.
  pose proof (length_pad_fit 8 (Callsign r) Hcs) as H1.
  assert (length (hex8 (RepeaterID r)) = 8%nat) as H2 by done.
  pose proof (length_pad_zero_fit 9 (RXFreq r) ltac:(lia) Hrx) as H3.
  pose proof (length_pad_zero_fit 9 (TXFreq r) ltac:(lia) Htx) as H4.
  rewrite <- !pad_zero_two by lia.
  assert (length (pad_zero 2 (Z.min 99 (TXPower r))) = 2%nat) as H5
    by (rewrite pad_zero_two by lia; done).
  assert (length (pad_zero 2 (Z.min 15 (Z.max 1 (ColorCode r)))) = 2%nat) as H6
    by (rewrite pad_zero_two by lia; done).
  destruct (columns _ _ _ _ _ _ _
              (take 8 (pad_right 8 (Sprintf_f (Latitude r)))
               ++ take 9 (pad_right 9 (Sprintf_f (Longitude r)))
               ++ pad_zero 3 (Height r)
               ++ pad_right 20 (Location r)
               ++ pad_right 20 (Description r)
               ++ pad_right 124 (URL r)
               ++ pad_right 40 (SoftwareID GOOS)
               ++ pad_right 40 (PackageID GOOS GOARCH))
              H0 H1 H2 H3 H4 H5 H6)
    as (C0 & C1 & C2 & C3 & C4 & C5 & C6).
  split_and!; [exact C0|exact C1|exact C2| |exact C3|exact C4|exact C5|exact C6].
  intros key sf l Hnew. etrans; [exact C2|]. unfold New in Hnew.
  destruct (RepeaterID r =? 0); [done|]. by injection Hnew as <-.
Qed.
End configuration_facts.

Section configuration_samples.
Import Homebrew Configuration.

Lemma ascii_bytes (s : list Z) :
  forallb (λ c, (0 <=? c) && (c <? 128)) s = true → ascii s.
Proof.
  induction s as [|c s IH]; cbn [forallb]; intros Hs; [apply Forall_nil_2|].
  apply andb_true_iff in Hs as [Hc Hs].
  apply andb_true_iff in Hc as [Hlo Hhi].
  apply Z.leb_le in Hlo. apply Z.ltb_lt in Hhi.
  apply Forall_cons_2; [done|by apply IH].
Qed.

Lemma String_length_witness : length (sample_text sample).2 = 306%nat.
Proof.
  apply (proj2 (String_length (list Z) (λ t, t) (Samples.bytes "linux")
                  (Samples.bytes "amd64") sample
                  (ascii_bytes (Callsign sample) eq_refl)
                  (ascii_bytes (Location sample) eq_refl)
                  (ascii_bytes (Description sample) eq_refl)
                  (ascii_bytes (URL sample) eq_refl)
                  (ascii_bytes (Samples.bytes "linux") eq_refl)
                  (ascii_bytes (Samples.bytes "amd64") eq_refl)
                  ltac:(cbn; lia) ltac:(cbn; lia) ltac:(cbn; lia)
                  ltac:(cbn; lia))).
  split_and!; cbn; lia.
Defined.

Lemma String_columns_witness :
  take 8 (drop 12 (sample_text sample).2) = Samples.bytes "001f2891"
  ∧ take 2 (drop 40 (sample_text sample).2) = Samples.bytes "01".
Proof.
  destruct (String_columns (list Z) (λ t, t) (Samples.bytes "linux")
              (Samples.bytes "amd64") sample
              (ascii_bytes (Callsign sample) eq_refl) ltac:(cbn; lia) ltac:(cbn; lia) ltac:(cbn; lia) ltac:(cbn; lia))
    as (text & cc & tp & <- & -> & -> & _ & _ & Hid & _ & _ & _ & _ & Hcc).
  split; [exact Hid|exact Hcc].
Defined.
End configuration_samples.

(** * Properties of [Send] *)

Section socket_facts.
Import Socket.

Lemma slice_to_end (data : list Z) (n : nat) :
  (n ≤ length data)%nat →
  slice (E:=Empty_set) data n (length data) = Ok (drop n data).
Proof.
  intros Hn. rewrite slice_in_range by lia.
  by rewrite take_ge by (rewrite length_drop; lia).
Qed.

Lemma slice_past_end (data : list Z) (n : nat) :
  (length data < n)%nat →
  slice (E:=Empty_set) data n (length data) = Panic.
Proof. intros Hn. unfold slice. by rewrite bool_decide_false by lia. Qed.

Lemma written_cons (n : nat) (err : bool) (writes : list (nat * bool)) :
  written ((n, err) :: writes) = (n + written writes)%nat.
Proof. reflexivity. Qed.

Lemma lookup_last_cons {A} (x : A) (l : list A) (h : nat) :
  (0 < h)%nat → (x :: l) !! (S h - 1)%nat = l !! (h - 1)%nat.
Proof. intros Hh. by replace (S h - 1)%nat with (S (h - 1)) by lia. Qed.

Lemma length_pos {A} (l : list A) : l ≠ [] → (0 < length l)%nat.
Proof. destruct l; [done|]. cbn. lia. Qed.

(** X22: what [Send] hands to the socket.  Every write is handed all that is
    left of the data, never an empty buffer: the data without the bytes the
    writes before it reported.  [Send] returns without error only when the
    counts reported add up to the length of the data, so after a short write
    the rest goes out as a datagram of its own; nothing is written after a
    write that fails, nothing at all for empty data, and a count beyond what
    is left makes [Send] fault. *)
Theorem Send_hands_over_the_rest (writes : list (nat * bool)) (data : list Z) :
  ∃ handed o,
    Send writes data = (handed, o)
    ∧ (length handed ≤ length writes)%nat
    ∧ (∀ k p, handed !! k = Some p →
       p ≠ [] ∧ p = drop (written (take k writes)) data)
    ∧ (∀ k n err, (S k < length handed)%nat →
       writes !! k = Some (n, err) → err = false)
    ∧ (data = [] → handed = [] ∧ o = Returned false)
    ∧ (o = Returned false →
       written (take (length handed) writes) = length data)
    ∧ (o = Returned true →
       handed ≠ []
       ∧ ∃ n, writes !! (length handed - 1)%nat = Some (n, true))
    ∧ (o = Faulted →
       handed ≠ []
       ∧ ∃ n, writes !! (length handed - 1)%nat = Some (n, false)
           ∧ (length data < written (take (length handed - 1) writes) + n)%nat)
    ∧ (o = Writing → length handed = length writes).
Proof.
  revert data. induction writes as [|[n err] writes IH]; intros data.
  { destruct data as [|b data]; eexists _, _; (split; [reflexivity|]).
    all: split_and!; try done; try (intros; cbn in *; lia). }
  destruct data as [|b data].
  { eexists _, _. split; [reflexivity|].
    split_and!; try done; try (intros; cbn in *; lia). }
  cbn [Send]. destruct err.
  { eexists _, _. split; [reflexivity|].
    split_and!; try done; try (intros; cbn in *; lia).
    - intros [|k] p; [|done]. intros [= <-]. done.
    - intros _. split; [done|]. by exists n. }
  destruct (decide (n ≤ length (b :: data))%nat) as [Hn|Hn].
  - rewrite slice_to_end by done.
    destruct (IH (drop n (b :: data)))
      as (handed & o & -> & Hlen & Hrest & Hok & Hnil & Hdone & Herr & Hfault
          & Hwriting).
    eexists _, _. split; [reflexivity|].
    split_and!; cbn [length]; try done; try lia.
    + intros [|k] p.
      * intros [= <-]. done.
      * intros Hp. destruct (Hrest k p Hp) as [Hne ->]. split; [done|].
        cbn [take]. rewrite written_cons. by rewrite drop_drop.
    + intros [|k] n' err'; cbn.
      * by intros _ [= _ <-].
      * intros Hk. apply Hok. lia.
    + intros Ho. specialize (Hdone Ho).
      cbn [take]. rewrite written_cons, Hdone, length_drop.
      cbn [length] in *. lia.
    + intros Ho. destruct (Herr Ho) as (Hne & n' & Hn').
      split; [done|]. exists n'.
      by rewrite lookup_last_cons by (by apply length_pos).
    + intros Ho. destruct (Hfault Ho) as (Hne & n' & Hn' & Hover).
      split; [done|]. exists n'.
      pose proof (length_pos _ Hne) as Hpos.
      split; [by rewrite lookup_last_cons|].
      replace (S (length handed) - 1)%nat with (S (length handed - 1)) by lia.
      cbn [take]. rewrite written_cons.
      rewrite length_drop in Hover. cbn [length] in *. lia.
    + intros Ho. by rewrite (Hwriting Ho).
  - rewrite slice_past_end by lia.
    eexists _, _. split; [reflexivity|].
    split_and!; try done; try (intros; cbn in *; lia).
    + intros [|k] p; [|done]. intros [= <-]. done.
    + intros _. split; [done|]. exists n. split; [done|]. cbn. cbn in Hn. lia.
Qed.
End socket_facts.
